(** * LocationLockedVault: registry, access control and geofence check

    A shallow embedding of the Solidity contract [LocationLockedVault]
    (write-once file registry, per-file access list, fixed-point geofence
    verification) together with the properties its specification states. *)

From Stdlib Require Import ZArith Lia.
From stdpp Require Import gmap strings sorting.

Open Scope Z_scope.

(** ** Execution outcomes and checked [int256] arithmetic *)

Module Solidity.

(** How a call can fail: a [require] whose condition is false reverts with
    its message; checked arithmetic panics (code 0x11 on overflow, 0x12 on
    division by zero); a loop can exhaust its iteration budget. *)
Inductive failure : Type :=
| Revert (reason : string)
| Panic (code : Z)
| OutOfGas.

Inductive outcome (A : Type) : Type :=
| Ok (a : A)
| Fail (f : failure).
Arguments Ok {A} a.
Arguments Fail {A} f.

#[global] Instance outcome_ret : MRet outcome := fun A a => Ok a.
#[global] Instance outcome_bind : MBind outcome := fun A B k m =>
  match m with
  | Ok a => k a
  | Fail f => Fail f
  end.
#[global] Instance outcome_fmap : FMap outcome := fun A B g m =>
  match m with
  | Ok a => Ok (g a)
  | Fail f => Fail f
  end.

(** A value of type [int256] used as an operand. *)
Definition lit (v : Z) : outcome Z := Ok v.
Coercion lit : Z >-> outcome.

Definition int256_min : Z := - 2 ^ 255.
Definition int256_max : Z := 2 ^ 255 - 1.

Definition in_int256 (v : Z) : bool :=
  (int256_min <=? v) && (v <=? int256_max).

(** The range of an [int32] parameter. *)
Definition is_int32 (v : Z) : Prop := - 2 ^ 31 <= v <= 2 ^ 31 - 1.

Definition overflow : Z := 17.
Definition division_by_zero : Z := 18.

(** Solidity >= 0.8: the result of [+], [-], [*], [/] on [int256] is
    checked against the type's range; [/] truncates toward zero. *)
Definition checked (v : Z) : outcome Z :=
  if in_int256 v then Ok v else Fail (Panic overflow).

Definition add (a b : Z) : outcome Z := checked (a + b).
Definition sub (a b : Z) : outcome Z := checked (a - b).
Definition mul (a b : Z) : outcome Z := checked (a * b).
Definition div (a b : Z) : outcome Z :=
  if b =? 0 then Fail (Panic division_by_zero) else checked (Z.quot a b).

(** Operands are evaluated left to right, then the operator is applied. *)
Definition binop (op : Z -> Z -> outcome Z) (a b : outcome Z) : outcome Z :=
  x ← a; y ← b; op x y.

(** [require(cond, reason)] in a function that does not write storage. *)
Definition require_that (cond : bool) (reason : string) : outcome unit :=
  if cond then Ok () else Fail (Revert reason).

(** Explicit conversion [uint256(v)]: the value modulo 2^256, not checked
    (the identity on every non-negative value of a narrower type). *)
Definition to_uint256 (v : Z) : Z := v mod 2 ^ 256.

End Solidity.

Import Solidity.

Declare Scope sol_scope.
Delimit Scope sol_scope with sol.
Infix "+!" := (binop add) (at level 50, left associativity) : sol_scope.
Infix "-!" := (binop sub) (at level 50, left associativity) : sol_scope.
Infix "*!" := (binop mul) (at level 40, left associativity) : sol_scope.
Infix "/!" := (binop div) (at level 40, left associativity) : sol_scope.
Open Scope sol_scope.

(** [int256 v ::= e; k] declares the local [v], as [int256 v = e;] does. *)
Notation "'int256' v '::=' e ; k" :=
  (mbind (M := outcome) (fun v : Z => k) e)
  (at level 10, v name, e at level 100, k at level 200,
   format "'[v' 'int256'  v  '::='  e ; '/' k ']'") : sol_scope.

(** ** The contract *)

Module LocationLockedVault.

(** *** Fixed-point helpers ([internal pure]) *)

(** cos(x) ~ 1 - x^2/2 + x^4/24, scale 1e6. *)
Definition cos (x : Z) : outcome Z :=
  int256 x2 ::= (x *! x) /! 1000000;
  int256 x4 ::= (x2 *! x2) /! 1000000;
  1000000 -! (x2 /! 2) +! (x4 /! 24).

(** The [while (z < y) { y = z; z = (x / z + z) / 2; }] loop of [sqrt];
    [gas] bounds the number of iterations. *)
Fixpoint sqrt_loop (gas : nat) (x z y : Z) : outcome Z :=
  if z <? y then
    match gas with
    | O => Fail OutOfGas
    | S gas' =>
        int256 z' ::= (x /! z +! z) /! 2;
        sqrt_loop gas' x z' z
    end
  else Ok y.

(** The loop is given [x] iterations; it needs fewer ([sqrt_total]). *)
Definition sqrt (x : Z) : outcome Z :=
  if x <? 0 then Ok 0
  else if x =? 0 then Ok 0
  else
    int256 z ::= (x +! 1) /! 2;
    sqrt_loop (Z.to_nat x) x z x.

Definition calculateDistance (lat1 lon1 lat2 lon2 : Z) : outcome Z :=
  let R := 6371000 in
  int256 lat1Rad ::= (lat1 *! 314159) /! 180000000;
  int256 lon1Rad ::= (lon1 *! 314159) /! 180000000;
  int256 lat2Rad ::= (lat2 *! 314159) /! 180000000;
  int256 lon2Rad ::= (lon2 *! 314159) /! 180000000;
  int256 dLat ::= lat2Rad -! lat1Rad;
  int256 dLon ::= lon2Rad -! lon1Rad;
  int256 x ::= dLon *! (lat1Rad /! 1000000 ≫= cos) /! 1000000;
  int256 y ::= dLat;
  int256 distanceSquared ::= x *! x +! y *! y;
  to_uint256 <$> (sqrt distanceSquared *! R /! 1000000).

(** *** Storage *)

Record FileRecord : Type := {
  uploader : Z;               (* address *)
  ipfsCID : string;
  signature : list Byte.byte; (* bytes *)
  timestamp : Z;              (* uint256 *)
  hasLocationLock : bool;
  latitude : Z;               (* int32, micro-degrees *)
  longitude : Z;              (* int32, micro-degrees *)
  radius : Z                  (* uint32, meters *)
}.

Inductive Event : Type :=
| FileUploaded (fileHash uploader : Z) (ipfsCID : string)
    (signature : list Byte.byte) (timestamp : Z) (hasLocationLock : bool)
    (latitude longitude radius : Z)
| AccessGranted (fileHash grantee : Z)
| AccessRevoked (fileHash grantee : Z).

(** The two mappings of the contract and the log of emitted events.
    [accessControl[fileHash][addr]] is keyed by the pair. *)
Record State : Type := {
  fileRecords : gmap Z FileRecord;
  accessControl : gmap (Z * Z) bool;
  events : list Event
}.

Definition initial : State :=
  {| fileRecords := ∅; accessControl := ∅; events := [] |}.

(** A mapping read of a key never written yields the zero value. *)
Definition zeroRecord : FileRecord :=
  {| uploader := 0; ipfsCID := ""; signature := []; timestamp := 0;
     hasLocationLock := false; latitude := 0; longitude := 0; radius := 0 |}.

Definition fileRecords_at (s : State) (fileHash : Z) : FileRecord :=
  default zeroRecord (fileRecords s !! fileHash).

Definition accessControl_at (s : State) (fileHash addr : Z) : bool :=
  default false (accessControl s !! (fileHash, addr)).

(** *** State-changing code: a state and failure monad *)

Definition M (A : Type) : Type := State -> outcome A * State.

#[global] Instance M_ret : MRet M := fun A a s => (Ok a, s).
#[global] Instance M_bind : MBind M := fun A B k m s =>
  match m s with
  | (Ok a, s') => k a s'
  | (Fail f, s') => (Fail f, s')
  end.

Definition require (cond : State -> bool) (reason : string) : M unit :=
  fun s => if cond s then (Ok (), s) else (Fail (Revert reason), s).

Definition store_fileRecord (fileHash : Z) (r : FileRecord) : M unit :=
  fun s => (Ok (), {| fileRecords := <[fileHash := r]> (fileRecords s);
                      accessControl := accessControl s;
                      events := events s |}).

Definition store_accessControl (fileHash addr : Z) (b : bool) : M unit :=
  fun s => (Ok (), {| fileRecords := fileRecords s;
                      accessControl := <[(fileHash, addr) := b]> (accessControl s);
                      events := events s |}).

Definition emit (e : Event) : M unit :=
  fun s => (Ok (), {| fileRecords := fileRecords s;
                      accessControl := accessControl s;
                      events := events s ++ [e] |}).

(** [msg.sender] and [block.timestamp] of the call. *)
Record Env : Type := { msg_sender : Z; block_timestamp : Z }.

(** *** Public functions *)

Definition uploadFile (env : Env) (fileHash : Z) (ipfsCID : string)
    (signature : list Byte.byte) (hasLocationLock : bool)
    (latitude longitude radius : Z) : M unit :=
  require (fun s => uploader (fileRecords_at s fileHash) =? 0)
          "File already uploaded" ;;
  require (fun _ => 0 <? Z.of_nat (String.length ipfsCID))
          "IPFS CID cannot be empty" ;;
  store_fileRecord fileHash
    {| uploader := msg_sender env;
       ipfsCID := ipfsCID;
       signature := signature;
       timestamp := block_timestamp env;
       hasLocationLock := hasLocationLock;
       latitude := latitude;
       longitude := longitude;
       radius := radius |} ;;
  store_accessControl fileHash (msg_sender env) true ;;
  emit (FileUploaded fileHash (msg_sender env) ipfsCID signature
          (block_timestamp env) hasLocationLock latitude longitude radius).

Definition getFileRecord (s : State) (fileHash : Z)
    : Z * string * list Byte.byte * Z * bool * Z * Z * Z :=
  let record := fileRecords_at s fileHash in
  (uploader record, ipfsCID record, signature record, timestamp record,
   hasLocationLock record, latitude record, longitude record, radius record).

Definition verifyLocation (s : State) (fileHash currentLatitude currentLongitude : Z)
    : outcome bool :=
  let record := fileRecords_at s fileHash in
  require_that (negb (uploader record =? 0)) "File not found" ;;
  if negb (hasLocationLock record) then Ok true
  else
    distance ← calculateDistance (latitude record) (longitude record)
                                 currentLatitude currentLongitude;
    Ok (distance <=? to_uint256 (radius record)).

Definition grantAccess (env : Env) (fileHash grantee : Z) : M unit :=
  require (fun s => uploader (fileRecords_at s fileHash) =? msg_sender env)
          "Only uploader can grant access" ;;
  require (fun _ => negb (grantee =? 0)) "Invalid grantee address" ;;
  store_accessControl fileHash grantee true ;;
  emit (AccessGranted fileHash grantee).

Definition revokeAccess (env : Env) (fileHash grantee : Z) : M unit :=
  require (fun s => uploader (fileRecords_at s fileHash) =? msg_sender env)
          "Only uploader can revoke access" ;;
  require (fun _ => negb (grantee =? msg_sender env))
          "Cannot revoke own access" ;;
  store_accessControl fileHash grantee false ;;
  emit (AccessRevoked fileHash grantee).

Definition canAccess (s : State) (fileHash addr : Z) : bool :=
  accessControl_at s fileHash addr.

Definition fileExists (s : State) (fileHash : Z) : bool :=
  negb (uploader (fileRecords_at s fileHash) =? 0).

End LocationLockedVault.

Import LocationLockedVault.


(** ** Transactions *)

Module Transaction.

(** The state-changing entry points, with their arguments. *)
Inductive Call : Type :=
| UploadFile (fileHash : Z) (ipfsCID : string) (signature : list Byte.byte)
    (hasLocationLock : bool) (latitude longitude radius : Z)
| GrantAccess (fileHash grantee : Z)
| RevokeAccess (fileHash grantee : Z).

Definition body (env : Env) (c : Call) : M unit :=
  match c with
  | UploadFile fileHash ipfsCID signature hasLocationLock latitude longitude radius =>
      uploadFile env fileHash ipfsCID signature hasLocationLock
                 latitude longitude radius
  | GrantAccess fileHash grantee => grantAccess env fileHash grantee
  | RevokeAccess fileHash grantee => revokeAccess env fileHash grantee
  end.

(** A failing call is rolled back: its caller sees the failure and the
    storage and log of before the call. *)
Definition transact {A : Type} (m : M A) (s : State) : outcome A * State :=
  match m s with
  | (Ok a, s') => (Ok a, s')
  | (Fail f, _) => (Fail f, s)
  end.

Definition execute (env : Env) (c : Call) (s : State) : outcome unit * State :=
  transact (body env c) s.

(** The state after a sequence of transactions, oldest first. *)
Fixpoint run (txs : list (Env * Call)) (s : State) : State :=
  match txs with
  | [] => s
  | (env, c) :: txs' => run txs' (execute env c s).2
  end.

Definition succeeded {A : Type} (r : outcome A) : bool :=
  match r with
  | Ok _ => true
  | Fail _ => false
  end.

Definition uploads (fileHash : Z) (c : Call) : bool :=
  match c with
  | UploadFile h _ _ _ _ _ _ => h =? fileHash
  | _ => false
  end.

(** Some [uploadFile] of [fileHash] in the sequence returned normally. *)
Fixpoint upload_succeeded (fileHash : Z) (txs : list (Env * Call)) (s : State)
    : bool :=
  match txs with
  | [] => false
  | (env, c) :: txs' =>
      (uploads fileHash c && succeeded (execute env c s).1)
      || upload_succeeded fileHash txs' (execute env c s).2
  end.

(** Every transaction is sent from an account: [msg.sender] is not
    [address(0)]. *)
Definition signed (txs : list (Env * Call)) : bool :=
  forallb (fun tx => negb (msg_sender tx.1 =? 0)) txs.

End Transaction.

Import Transaction.

(** ** The error kinds of the specification *)

Module Spec.

Inductive ErrorKind : Type :=
| AlreadyExists
| InvalidPointer
| NotFound
| Unauthorized
| InvalidGrantee
| SelfRevocation.

(** The error kind each revert message of the contract stands for. *)
Definition error_kind (reason : string) : option ErrorKind :=
  if String.eqb reason "File already uploaded" then Some AlreadyExists
  else if String.eqb reason "IPFS CID cannot be empty" then Some InvalidPointer
  else if String.eqb reason "File not found" then Some NotFound
  else if String.eqb reason "Only uploader can grant access" then Some Unauthorized
  else if String.eqb reason "Only uploader can revoke access" then Some Unauthorized
  else if String.eqb reason "Invalid grantee address" then Some InvalidGrantee
  else if String.eqb reason "Cannot revoke own access" then Some SelfRevocation
  else None.

Definition fails_with {A : Type} (k : ErrorKind) (r : outcome A) : Prop :=
  exists reason, r = Fail (Revert reason) /\ error_kind reason = Some k.

(** Every uploader of an existing record is on its access list. *)
Definition uploaders_have_access (s : State) : Prop :=
  forall fileHash : Z,
    fileExists s fileHash = true ->
    canAccess s fileHash (uploader (fileRecords_at s fileHash)) = true.

(** Neither mapping has ever been written under [fileHash]. *)
Definition never_written (fileHash : Z) (s : State) : Prop :=
  fileRecords s !! fileHash = None
  /\ forall addr : Z, accessControl s !! (fileHash, addr) = None.

End Spec.

Import Spec.

(** ** Reading the history of a contract *)

Module History.

(** How many transactions of a sequence returned normally. *)
Fixpoint successes (txs : list (Env * Call)) (s : State) : nat :=
  match txs with
  | [] => O
  | (env, c) :: txs' =>
      ((if succeeded (execute env c s).1 then 1 else 0)
       + successes txs' (execute env c s).2)%nat
  end.

(** No transaction of the sequence is sent by [addr]. *)
Definition sent_by_others (addr : Z) (txs : list (Env * Call)) : bool :=
  forallb (fun tx => negb (msg_sender tx.1 =? addr)) txs.

(** [e] is a [FileUploaded] event of [fileHash] (its first, indexed
    topic). *)
Definition event_uploads (fileHash : Z) (e : Event) : bool :=
  match e with
  | FileUploaded h _ _ _ _ _ _ _ _ => h =? fileHash
  | _ => false
  end.

(** The [FileUploaded] event that carries the fields of a record. *)
Definition upload_event (fileHash : Z) (r : FileRecord) : Event :=
  FileUploaded fileHash (uploader r) (ipfsCID r) (signature r) (timestamp r)
    (hasLocationLock r) (latitude r) (longitude r) (radius r).

(** Every [FileUploaded] event of the log is the one of the record now
    stored under its hash. *)
Definition log_matches_registry (s : State) : Prop :=
  forall (e : Event) (fileHash : Z),
    event_uploads fileHash e = true ->
    e ∈ events s ->
    fileExists s fileHash = true
    /\ e = upload_event fileHash (fileRecords_at s fileHash).

(** Every existing record has its [FileUploaded] event in the log. *)
Definition registry_in_log (s : State) : Prop :=
  forall fileHash : Z,
    fileExists s fileHash = true ->
    upload_event fileHash (fileRecords_at s fileHash) ∈ events s.

(** The number of [FileUploaded] events of [fileHash] in the log. *)
Definition uploads_logged (fileHash : Z) (s : State) : nat :=
  length (List.filter (event_uploads fileHash) (events s)).

End History.

Import History.

(** ** The audit trail of the server *)

Module AuditTrail.

(** The block ranges handed to [getLogs], in order:
    [for (let start = fromBlock; start <= toBlock; start += batchSize)]
    with [end = Math.min(start + batchSize - 1, toBlock)]. [rounds] bounds
    the number of iterations. *)
Fixpoint batches (rounds : nat) (start toBlock batchSize : Z)
    : list (Z * Z) :=
  if start <=? toBlock then
    match rounds with
    | O => []
    | S rounds' =>
        (start, Z.min (start + batchSize - 1) toBlock)
        :: batches rounds' (start + batchSize) toBlock batchSize
    end
  else [].

(** The ranges queried for a chain whose latest block is [latestBlock]:
    the last 5000 blocks, 500 at a time. *)
Definition block_ranges (latestBlock : Z) : list (Z * Z) :=
  let batchSize := 500 in
  let fromBlock := Z.max 0 (latestBlock - 5000) in
  let toBlock := latestBlock in
  batches (Z.to_nat (toBlock - fromBlock + 1)) fromBlock toBlock batchSize.

(** The blocks of a range, both ends included. *)
Definition blocks (range : Z * Z) : list Z :=
  seqZ range.1 (range.2 - range.1 + 1).

Section RecentFirst.

Context {A : Type} (timestamp : A -> Z).

(** [events.sort((a, b) => b.timestamp - a.timestamp)]: the sort of an
    array is stable, so the result is the arrangement by decreasing
    timestamp that keeps events of equal timestamp in their order. It is
    computed here by insertion, from the last event to the first. *)
Fixpoint insert_event (e : A) (sorted : list A) : list A :=
  match sorted with
  | [] => [e]
  | e' :: rest =>
      if timestamp e <? timestamp e' then e' :: insert_event e rest
      else e :: sorted
  end.

Definition sort_recent_first (events : list A) : list A :=
  foldr insert_event [] events.

(** [events.slice(0, 50)] of the sorted events. *)
Definition latest_page (events : list A) : list A :=
  take 50 (sort_recent_first events).

End RecentFirst.

End AuditTrail.

Import AuditTrail.

(** ** The local server: an in-memory list of files *)

Module LocalBackend.

Section MockFiles.

(** The numbers of the latitude, longitude and radius fields; the code
    below only stores and returns them. *)
Context {num : Type}.

Record FileEntry : Type := {
  fileHash : string;
  uploader : string;
  ipfsCID : string;
  signature : string;
  timestamp : Z;
  hasLocationLock : bool;
  latitude : num;
  longitude : num;
  radius : num
}.

Inductive Reply : Type :=
| Success (fileRecord : FileEntry)
| BadRequest (error : string).

(** [!v] is false for a non-empty string only. *)
Definition truthy (v : option string) : bool :=
  match v with
  | Some text => negb (String.eqb text "")
  | None => false
  end.

(** [POST /upload]. [file] says whether a file came with the request; the
    three numbers are the parsed fields; [cid] is the generated CID and
    [now] the clock in seconds. Returns the reply and the new list. *)
Definition upload (file : bool)
    (walletAddress signature fileHash hasLocationLock : option string)
    (latitude longitude radius : num) (cid : string) (now : Z)
    (mockFiles : list FileEntry) : Reply * list FileEntry :=
  if negb file then (BadRequest "No file uploaded", mockFiles)
  else if negb (truthy walletAddress) || negb (truthy signature) then
    (BadRequest "Missing wallet address or signature", mockFiles)
  else if negb (truthy fileHash) then
    (BadRequest "Missing file hash", mockFiles)
  else
    let fileRecord :=
      {| fileHash := default "" fileHash;
         uploader := default "" walletAddress;
         ipfsCID := cid;
         signature := default "" signature;
         timestamp := now;
         hasLocationLock :=
           match hasLocationLock with
           | Some text => String.eqb text "true"
           | None => false
           end;
         latitude := latitude;
         longitude := longitude;
         radius := radius |} in
    (Success fileRecord, mockFiles ++ [fileRecord]).

(** [GET /getFile/:hash]: [mockFiles.find(f => f.fileHash === hash)];
    [None] is the empty reply. *)
Definition getFile (hash : string) (mockFiles : list FileEntry)
    : option FileEntry :=
  List.find (fun f => String.eqb (fileHash f) hash) mockFiles.

(** [GET /auditTrail]: every file, most recent first. *)
Definition auditTrail (mockFiles : list FileEntry) : list FileEntry :=
  sort_recent_first timestamp mockFiles.

End MockFiles.

End LocalBackend.

(** ** Checked arithmetic: when the checks pass *)

Section CheckedArithmetic.

Lemma int256_max_value :
  int256_max =
  57896044618658097711785492504343953926634992332820282019728792003956564819967.
Proof. reflexivity. Qed.

Lemma int256_min_value :
  int256_min =
  -57896044618658097711785492504343953926634992332820282019728792003956564819968.
Proof. reflexivity. Qed.

Lemma checked_in_range (v : Z) :
  int256_min <= v <= int256_max -> checked v = lit v.
Proof.
  intros [Hlo Hhi]. unfold checked, in_int256.
  apply Z.leb_le in Hlo, Hhi. now rewrite Hlo, Hhi.
Qed.

Lemma add_in_range (a b : Z) :
  int256_min <= a + b <= int256_max -> lit a +! lit b = lit (a + b).
Proof. intros H. cbn. now apply checked_in_range. Qed.

Lemma sub_in_range (a b : Z) :
  int256_min <= a - b <= int256_max -> lit a -! lit b = lit (a - b).
Proof. intros H. cbn. now apply checked_in_range. Qed.

Lemma mul_in_range (a b : Z) :
  int256_min <= a * b <= int256_max -> lit a *! lit b = lit (a * b).
Proof. intros H. cbn. now apply checked_in_range. Qed.

Lemma div_in_range (a b : Z) :
  b <> 0 -> int256_min <= a ÷ b <= int256_max -> lit a /! lit b = lit (a ÷ b).
Proof.
  intros Hb H. cbn. unfold div.
  destruct (Z.eqb_spec b 0) as [->|_]; [contradiction|].
  now apply checked_in_range.
Qed.

Lemma bind_lit {B : Type} (v : Z) (k : Z -> outcome B) :
  mbind k (lit v) = k v.
Proof. reflexivity. Qed.

(** Values far inside the range, as all those of the distance
    computation are. *)
Lemma small_in_range (v : Z) :
  - 10 ^ 30 <= v <= 10 ^ 30 -> int256_min <= v <= int256_max.
Proof. rewrite int256_max_value, int256_min_value. lia. Qed.

End CheckedArithmetic.

(** ** The integer square root *)

Section SquareRoot.

Variable x : Z.
Hypothesis x_pos : 0 < x.
Hypothesis x_fits : x < int256_max.

Let r := Z.sqrt x.

Lemma root_bounds : 0 < r /\ r * r <= x < (r + 1) * (r + 1).
Proof.
  subst r. pose proof (Z.sqrt_spec x ltac:(lia)) as H.
  pose proof (Z.sqrt_pos x). cbv zeta in H. lia.
Qed.

(** One Newton step from an iterate [z] at or above the root. *)
Lemma newton_step (z : Z) :
  r <= z -> z < x ->
  (lit x /! lit z +! lit z) /! lit 2 = lit ((x ÷ z + z) ÷ 2)
  /\ r <= (x ÷ z + z) ÷ 2
  /\ (r < z -> (x ÷ z + z) ÷ 2 < z).
Proof.
  intros Hrz Hzx. destruct root_bounds as (Hr & Hlo & Hhi).
  assert (Hq : x ÷ z = x / z) by (apply Z.quot_div_nonneg; lia).
  pose proof (Z.div_mod x z ltac:(lia)) as Hdm.
  pose proof (Z.mod_pos_bound x z ltac:(lia)) as Hm.
  set (q := x / z) in *.
  assert (Hq0 : 0 <= q) by (subst q; apply Z.div_pos; lia).
  assert (Hsum : q + z <= x + 1) by nia.
  assert (Hh : (q + z) ÷ 2 = (q + z) / 2) by (apply Z.quot_div_nonneg; lia).
  assert (Hh0 : 0 <= (q + z) / 2 <= x + 1).
  { split; [apply Z.div_pos; lia|].
    apply Z.div_le_upper_bound; lia. }
  pose proof int256_max_value as Hmax. pose proof int256_min_value as Hmin.
  split; [|split].
  - rewrite (div_in_range x z) by (rewrite ?Hq; lia).
    rewrite Hq, (add_in_range q z) by lia.
    rewrite (div_in_range (q + z) 2) by (rewrite ?Hh; lia).
    reflexivity.
  - rewrite Hq, Hh. apply Z.div_le_lower_bound; [lia|]. nia.
  - intros Hlt. rewrite Hq, Hh. apply Z.div_lt_upper_bound; [lia|]. nia.
Qed.

(** The loop, entered with [z] at or above the root and [y] the previous
    iterate, returns the root when the budget covers [z - r] steps. *)
Lemma sqrt_loop_converges (gas : nat) :
  forall z y : Z,
    r <= z -> y <= x -> z < y \/ y = r ->
    (z < y -> z - r < Z.of_nat gas) ->
    sqrt_loop gas x z y = Ok r.
Proof.
  induction gas as [|gas IH]; intros z y Hrz Hyx Hinv Hgas;
    cbn [sqrt_loop]; destruct (Z.ltb_spec z y) as [Hzy|Hzy];
    [exfalso; lia | f_equal; lia | | f_equal; lia].
  destruct (newton_step z) as (Hstep & Hge & Hlt); [lia..|].
  rewrite Hstep, bind_lit. apply IH; [lia..| |].
  - destruct (Z.eq_dec z r); [now right|left; apply Hlt; lia].
  - intros Hdec. specialize (Hgas Hzy). lia.
Qed.

Theorem sqrt_exact : sqrt x = Ok r.
Proof.
  destruct root_bounds as (Hr & Hlo & Hhi).
  pose proof int256_max_value as Hmax. pose proof int256_min_value as Hmin.
  assert (Hh : (x + 1) ÷ 2 = (x + 1) / 2) by (apply Z.quot_div_nonneg; lia).
  assert (Hz0 : r <= (x + 1) / 2 <= x).
  { split; [apply Z.div_le_lower_bound; nia|].
    apply Z.div_le_upper_bound; lia. }
  unfold sqrt.
  destruct (Z.ltb_spec x 0); [lia|]. destruct (Z.eqb_spec x 0); [lia|].
  rewrite (add_in_range x 1) by lia.
  rewrite (div_in_range (x + 1) 2) by (rewrite ?Hh; lia).
  rewrite bind_lit, Hh. apply sqrt_loop_converges; try lia.
  destruct (Z.eq_dec x 1) as [->|]; [now right|left].
  apply Z.div_lt_upper_bound; lia.
Qed.

End SquareRoot.

Section PerfectSquares.

Lemma int256_max_not_square (k : Z) : k * k <> int256_max.
Proof.
  intros Hk.
  assert (Habs : Z.abs k * Z.abs k = int256_max) by lia.
  pose proof (Z.sqrt_square (Z.abs k) (Z.abs_nonneg k)) as Hs.
  rewrite Habs in Hs.
  assert (Hr : Z.sqrt int256_max * Z.sqrt int256_max <> int256_max)
    by (vm_compute; discriminate).
  rewrite Hs in Hr. contradiction.
Qed.

Lemma sqrt_square (k : Z) :
  0 <= k -> k * k <= int256_max -> sqrt (k * k) = Ok k.
Proof.
  intros Hk Hfit. destruct (Z.eq_dec k 0) as [->|Hk0]; [reflexivity|].
  pose proof (int256_max_not_square k).
  rewrite sqrt_exact by nia. now rewrite Z.sqrt_square.
Qed.

End PerfectSquares.

(** On every [int256] input [sqrt] either returns the truncated root (0 for
    a negative input) or, on the largest [int256] alone, panics in
    [x + 1]; it never exhausts the loop budget. *)
Lemma sqrt_total (x : Z) :
  int256_min <= x <= int256_max ->
  sqrt x = Ok (Z.sqrt x)
  \/ (x = int256_max /\ sqrt x = Fail (Panic overflow)).
Proof.
  intros [Hlo Hhi].
  destruct (Z.eq_dec x int256_max) as [->|Hmax]; [right; now split|left].
  destruct (Z_lt_le_dec 0 x) as [Hpos|Hneg]; [apply sqrt_exact; lia|].
  unfold sqrt. destruct (Z.ltb_spec x 0) as [Hlt|Hge].
  - now rewrite Z.sqrt_neg.
  - replace x with 0 by lia. reflexivity.
Qed.

(** C8. The integer square root returns 0 on 0 and on every negative input,
    and returns exactly [k] on the perfect square [k * k], for every
    non-negative [k] whose square is an [int256] value. *)
Theorem sqrt_zero_negative_and_perfect_squares (x k : Z) :
  (x <= 0 -> sqrt x = Ok 0) /\
  (0 <= k -> k * k <= int256_max -> sqrt (k * k) = Ok k).
Proof.
  split; [|apply sqrt_square].
  intros Hx. unfold sqrt. destruct (Z.ltb_spec x 0); [reflexivity|].
  destruct (Z.eqb_spec x 0); [reflexivity|lia].
Qed.

Lemma sqrt_zero_negative_and_perfect_squares_witness :
  sqrt 0 = Ok 0 /\ sqrt (-7) = Ok 0 /\ sqrt (12 * 12) = Ok 12.
Proof.
  split; [|split].
  - apply (proj1 (sqrt_zero_negative_and_perfect_squares 0 0)). lia.
  - apply (proj1 (sqrt_zero_negative_and_perfect_squares (-7) 0)). lia.
  - apply (proj2 (sqrt_zero_negative_and_perfect_squares 0 12));
      [lia | vm_compute; discriminate].
Defined.

(** ** The distance computation *)

Section Distance.

Ltac zquot := Z.to_euclidean_division_equations; lia.
Ltac fits := apply small_in_range; zquot.

(** For an argument below 1000 in absolute value the squared term
    [x * x / 1000000] truncates to 0, and so does the quartic one. *)
Lemma cos_small (x : Z) : -1000 < x < 1000 -> cos x = lit 1000000.
Proof.
  intros Hx. unfold cos.
  assert (Hsq : 0 <= x * x < 1000000) by nia.
  assert (Hx2 : x * x ÷ 1000000 = 0) by (apply Z.quot_small; lia).
  rewrite (mul_in_range x x) by fits.
  rewrite (div_in_range (x * x) 1000000) by (rewrite ?Hx2; fits || lia).
  rewrite bind_lit, Hx2.
  reflexivity.
Qed.

(** Micro-degrees to the fixed-point angle of the contract. *)
Lemma to_radians (v : Z) :
  is_int32 v ->
  (lit v *! lit 314159) /! lit 180000000 = lit (v * 314159 ÷ 180000000)
  /\ -3748067 <= v * 314159 ÷ 180000000 <= 3748067.
Proof.
  unfold is_int32. intros Hv.
  assert (Hb : -3748067 <= v * 314159 ÷ 180000000 <= 3748067) by zquot.
  split; [|exact Hb].
  rewrite (mul_in_range v 314159) by fits.
  rewrite (div_in_range (v * 314159) 180000000) by (fits || lia).
  reflexivity.
Qed.

Lemma sqrt_nonneg (d : Z) :
  0 <= d < int256_max -> sqrt d = lit (Z.sqrt d).
Proof.
  intros Hd. destruct (Z.eq_dec d 0) as [->|Hd0]; [reflexivity|].
  apply sqrt_exact; lia.
Qed.

(** On [int32] coordinates no check of the computation fails, and the
    result is the truncated root of the squared offsets, scaled by the
    Earth radius. *)
Lemma calculateDistance_planar (lat1 lon1 lat2 lon2 : Z) :
  is_int32 lat1 -> is_int32 lon1 -> is_int32 lat2 -> is_int32 lon2 ->
  let dLat := lat2 * 314159 ÷ 180000000 - lat1 * 314159 ÷ 180000000 in
  let dLon := lon2 * 314159 ÷ 180000000 - lon1 * 314159 ÷ 180000000 in
  calculateDistance lat1 lon1 lat2 lon2
  = Ok (Z.sqrt (dLon * dLon + dLat * dLat) * 6371000 ÷ 1000000).
Proof.
  intros Hlat1 Hlon1 Hlat2 Hlon2 dLat dLon.
  destruct (to_radians lat1 Hlat1) as [Ea Ba].
  destruct (to_radians lon1 Hlon1) as [Eb Bb].
  destruct (to_radians lat2 Hlat2) as [Ec Bc].
  destruct (to_radians lon2 Hlon2) as [Ed Bd].
  unfold calculateDistance. cbv zeta.
  rewrite Ea, bind_lit, Eb, bind_lit, Ec, bind_lit, Ed, bind_lit.
  rewrite !sub_in_range by fits. rewrite !bind_lit.
  fold dLat dLon.
  rewrite (div_in_range (lat1 * 314159 ÷ 180000000) 1000000) by (fits || lia).
  rewrite bind_lit, cos_small by zquot.
  rewrite (mul_in_range dLon 1000000) by (subst dLon; fits).
  rewrite (div_in_range (dLon * 1000000) 1000000) by (subst dLon; fits || lia).
  rewrite bind_lit, Z.quot_mul by lia.
  rewrite bind_lit.
  assert (HdLat : -7496134 <= dLat <= 7496134) by (subst dLat; lia).
  assert (HdLon : -7496134 <= dLon <= 7496134) by (subst dLon; lia).
  clearbody dLat dLon.
  rewrite (mul_in_range dLon dLon), (mul_in_range dLat dLat) by (apply small_in_range; nia).
  rewrite add_in_range by (apply small_in_range; nia).
  rewrite bind_lit.
  set (d := dLon * dLon + dLat * dLat).
  assert (Hd : 0 <= d <= 112384049892712) by (subst d; nia).
  pose proof (Z.sqrt_nonneg d). pose proof (Z.sqrt_le_lin d ltac:(lia)).
  rewrite sqrt_nonneg by (rewrite int256_max_value; lia).
  rewrite (mul_in_range (Z.sqrt d) 6371000) by (apply small_in_range; nia).
  rewrite (div_in_range (Z.sqrt d * 6371000) 1000000) by (fits || lia).
  cbn. unfold to_uint256. f_equal. apply Z.mod_small.
  split; [zquot|]. apply Z.le_lt_trans with (10 ^ 30); [zquot|reflexivity].
Qed.

End Distance.

(** C10. For a lock latitude within +-90 degrees the fixed-point angle is
    below 1,000,000 in absolute value, so [lat1Rad / 1000000] is 0, the
    squared (and hence the quartic) term of the cosine is 0, the cosine is
    exactly 1,000,000, the planar offset [x] is [dLon] itself, and the
    distance is the scaled root of [dLon^2 + dLat^2]. *)
Theorem cosine_term_is_constant_on_valid_latitudes (lat1 lon1 lat2 lon2 : Z) :
  -90000000 <= lat1 <= 90000000 ->
  is_int32 lon1 -> is_int32 lat2 -> is_int32 lon2 ->
  let lat1Rad := lat1 * 314159 ÷ 180000000 in
  let dLat := lat2 * 314159 ÷ 180000000 - lat1Rad in
  let dLon := lon2 * 314159 ÷ 180000000 - lon1 * 314159 ÷ 180000000 in
  Z.abs lat1Rad < 1000000
  /\ lit lat1Rad /! lit 1000000 = lit 0
  /\ (lit (lat1Rad ÷ 1000000) *! lit (lat1Rad ÷ 1000000)) /! lit 1000000 = lit 0
  /\ cos (lat1Rad ÷ 1000000) = Ok 1000000
  /\ lit dLon *! (lit lat1Rad /! lit 1000000 ≫= cos) /! lit 1000000 = lit dLon
  /\ calculateDistance lat1 lon1 lat2 lon2
     = Ok (Z.sqrt (dLon * dLon + dLat * dLat) * 6371000 ÷ 1000000).
Proof.
  intros Hlat1 Hlon1 Hlat2 Hlon2 lat1Rad dLat dLon.
  assert (Hint : is_int32 lat1) by (unfold is_int32; lia).
  assert (Hrad : -157079 <= lat1Rad <= 157079)
    by (subst lat1Rad; Z.to_euclidean_division_equations; lia).
  assert (Hzero : lat1Rad ÷ 1000000 = 0) by (apply Z.quot_small_iff; lia).
  assert (Hdiv : lit lat1Rad /! lit 1000000 = lit 0).
  { rewrite div_in_range, Hzero; [reflexivity|lia|].
    rewrite Hzero. apply small_in_range; lia. }
  assert (HdLon : -7496134 <= dLon <= 7496134).
  { unfold is_int32 in *. subst dLon.
    Z.to_euclidean_division_equations; lia. }
  repeat split.
  - lia.
  - exact Hdiv.
  - rewrite Hzero. reflexivity.
  - rewrite Hzero. reflexivity.
  - rewrite Hdiv, bind_lit.
    change (cos 0) with (lit 1000000).
    rewrite mul_in_range by (apply small_in_range; lia).
    rewrite div_in_range, Z.quot_mul; [reflexivity|lia..|].
    rewrite Z.quot_mul by lia. apply small_in_range; lia.
  - now apply calculateDistance_planar.
Qed.

Lemma cosine_term_is_constant_on_valid_latitudes_witness :
  let lat1Rad := 90000000 * 314159 ÷ 180000000 in
  let dLat := 34053135 * 314159 ÷ 180000000 - lat1Rad in
  let dLon := 139691706 * 314159 ÷ 180000000 - -118243683 * 314159 ÷ 180000000 in
  Z.abs lat1Rad < 1000000
  /\ lit lat1Rad /! lit 1000000 = lit 0
  /\ (lit (lat1Rad ÷ 1000000) *! lit (lat1Rad ÷ 1000000)) /! lit 1000000 = lit 0
  /\ cos (lat1Rad ÷ 1000000) = Ok 1000000
  /\ lit dLon *! (lit lat1Rad /! lit 1000000 ≫= cos) /! lit 1000000 = lit dLon
  /\ calculateDistance 90000000 (-118243683) 34053135 139691706
     = Ok (Z.sqrt (dLon * dLon + dLat * dLat) * 6371000 ÷ 1000000).
Proof.
  apply (cosine_term_is_constant_on_valid_latitudes
           90000000 (-118243683) 34053135 139691706);
    unfold is_int32; lia.
Defined.

(** ** What each public function does, by cases on its [require]s *)

Section FunctionResults.

Variables (env : Env) (s : State).

Lemma uploadFile_result (fileHash : Z) (cid : string) (sig : list Byte.byte)
    (lock : bool) (lat lon rad : Z) :
  uploadFile env fileHash cid sig lock lat lon rad s =
  if uploader (fileRecords_at s fileHash) =? 0 then
    if 0 <? Z.of_nat (String.length cid) then
      (Ok (),
       {| fileRecords :=
            <[fileHash := {| uploader := msg_sender env; ipfsCID := cid;
                             signature := sig;
                             timestamp := block_timestamp env;
                             hasLocationLock := lock; latitude := lat;
                             longitude := lon; radius := rad |}]>
              (fileRecords s);
          accessControl :=
            <[(fileHash, msg_sender env) := true]> (accessControl s);
          events :=
            events s ++ [FileUploaded fileHash (msg_sender env) cid sig
                           (block_timestamp env) lock lat lon rad] |})
    else (Fail (Revert "IPFS CID cannot be empty"), s)
  else (Fail (Revert "File already uploaded"), s).
Proof.
  unfold uploadFile, mbind, M_bind, require.
  destruct (uploader (fileRecords_at s fileHash) =? 0); [|reflexivity].
  destruct (0 <? Z.of_nat (String.length cid)); reflexivity.
Qed.

Lemma grantAccess_result (fileHash grantee : Z) :
  grantAccess env fileHash grantee s =
  if uploader (fileRecords_at s fileHash) =? msg_sender env then
    if grantee =? 0 then (Fail (Revert "Invalid grantee address"), s)
    else
      (Ok (),
       {| fileRecords := fileRecords s;
          accessControl := <[(fileHash, grantee) := true]> (accessControl s);
          events := events s ++ [AccessGranted fileHash grantee] |})
  else (Fail (Revert "Only uploader can grant access"), s).
Proof.
  unfold grantAccess, mbind, M_bind, require.
  destruct (uploader (fileRecords_at s fileHash) =? msg_sender env);
    [|reflexivity].
  destruct (grantee =? 0); reflexivity.
Qed.

Lemma revokeAccess_result (fileHash grantee : Z) :
  revokeAccess env fileHash grantee s =
  if uploader (fileRecords_at s fileHash) =? msg_sender env then
    if grantee =? msg_sender env then
      (Fail (Revert "Cannot revoke own access"), s)
    else
      (Ok (),
       {| fileRecords := fileRecords s;
          accessControl := <[(fileHash, grantee) := false]> (accessControl s);
          events := events s ++ [AccessRevoked fileHash grantee] |})
  else (Fail (Revert "Only uploader can revoke access"), s).
Proof.
  unfold revokeAccess, mbind, M_bind, require.
  destruct (uploader (fileRecords_at s fileHash) =? msg_sender env);
    [|reflexivity].
  destruct (grantee =? msg_sender env); reflexivity.
Qed.

(** A failing body has written nothing when it fails. *)
Lemma body_failure_leaves_state (c : Call) (f : failure) (s' : State) :
  body env c s = (Fail f, s') -> s' = s.
Proof.
  destruct c; cbn [body];
    rewrite ?uploadFile_result, ?grantAccess_result, ?revokeAccess_result;
    repeat match goal with
           | |- context [if ?b then _ else _] => destruct b
           end;
    congruence.
Qed.

End FunctionResults.

Section ErrorKinds.

Context {A : Type}.

Lemma fails_with_revert (k : ErrorKind) (reason : string) :
  error_kind reason = Some k -> fails_with (A := A) k (Fail (Revert reason)).
Proof. intros H. now exists reason. Qed.

Lemma fails_with_kind (k : ErrorKind) (reason : string) :
  fails_with (A := A) k (Fail (Revert reason)) -> error_kind reason = Some k.
Proof. intros (reason' & Heq & Hk). now injection Heq as ->. Qed.

End ErrorKinds.

(** ** The registry is write-once *)

(** C1. In every state that holds a record for [fileHash], [uploadFile] with
    that hash, whoever calls it and whatever else it carries, reverts with
    "File already uploaded" (AlreadyExists) and leaves the whole state, and
    so the stored record, as it was. *)
Theorem upload_of_existing_hash_fails
    (s : State) (env : Env) (fileHash : Z) (cid : string)
    (sig : list Byte.byte) (lock : bool) (lat lon rad : Z) :
  fileExists s fileHash = true ->
  let r := execute env (UploadFile fileHash cid sig lock lat lon rad) s in
  uploadFile env fileHash cid sig lock lat lon rad s
  = (Fail (Revert "File already uploaded"), s)
  /\ fails_with AlreadyExists r.1
  /\ r.2 = s
  /\ getFileRecord r.2 fileHash = getFileRecord s fileHash.
Proof.
  intros Hex r. unfold fileExists in Hex.
  assert (Hrun : uploadFile env fileHash cid sig lock lat lon rad s
                 = (Fail (Revert "File already uploaded"), s)).
  { rewrite uploadFile_result.
    destruct (uploader (fileRecords_at s fileHash) =? 0);
      [discriminate|reflexivity]. }
  subst r. unfold execute, transact. cbn [body]. rewrite Hrun. cbn.
  repeat split. now apply fails_with_revert.
Qed.

Lemma upload_of_existing_hash_fails_witness :
  let first := {| msg_sender := 7; block_timestamp := 100 |} in
  let second := {| msg_sender := 8; block_timestamp := 200 |} in
  let s := (execute first (UploadFile 1 "QmA" [] true 34052235 (-118243683) 100)
              initial).2 in
  let r := execute second (UploadFile 1 "QmB" [] false 0 0 0) s in
  uploadFile second 1 "QmB" [] false 0 0 0 s
  = (Fail (Revert "File already uploaded"), s)
  /\ fails_with AlreadyExists r.1
  /\ r.2 = s
  /\ getFileRecord r.2 1 = getFileRecord s 1.
Proof.
  intros first second s.
  apply (upload_of_existing_hash_fails s second 1 "QmB" [] false 0 0 0).
  reflexivity.
Defined.

(** ** Authorization of grant and revoke *)

(** C4, as amended. Where no record exists for [fileHash], [grantAccess] and
    [revokeAccess] from any caller other than [address(0)] revert with the
    "Only uploader can ..." message (Unauthorized), for every grantee, and
    change nothing: the contract has no separate not-found check there. *)
Theorem grant_revoke_on_missing_record_unauthorized
    (s : State) (env : Env) (fileHash grantee : Z) :
  fileExists s fileHash = false ->
  msg_sender env <> 0 ->
  execute env (GrantAccess fileHash grantee) s
  = (Fail (Revert "Only uploader can grant access"), s)
  /\ execute env (RevokeAccess fileHash grantee) s
     = (Fail (Revert "Only uploader can revoke access"), s)
  /\ fails_with Unauthorized (execute env (GrantAccess fileHash grantee) s).1
  /\ fails_with Unauthorized (execute env (RevokeAccess fileHash grantee) s).1.
Proof.
  unfold fileExists. intros Hex Hsender.
  assert (Hup : uploader (fileRecords_at s fileHash) = 0)
    by (destruct (Z.eqb_spec (uploader (fileRecords_at s fileHash)) 0);
        [assumption|discriminate]).
  unfold execute, transact. cbn [body].
  rewrite grantAccess_result, revokeAccess_result, Hup.
  destruct (Z.eqb_spec 0 (msg_sender env)) as [Heq|_]; [congruence|].
  cbn. repeat split; now apply fails_with_revert.
Qed.

Lemma grant_revoke_on_missing_record_unauthorized_witness :
  let env := {| msg_sender := 7; block_timestamp := 100 |} in
  execute env (GrantAccess 1 9) initial
  = (Fail (Revert "Only uploader can grant access"), initial)
  /\ execute env (RevokeAccess 1 9) initial
     = (Fail (Revert "Only uploader can revoke access"), initial)
  /\ fails_with Unauthorized (execute env (GrantAccess 1 9) initial).1
  /\ fails_with Unauthorized (execute env (RevokeAccess 1 9) initial).1.
Proof.
  intros env.
  apply (grant_revoke_on_missing_record_unauthorized initial env 1 9);
    [reflexivity | cbn; lia].
Defined.

(** C4, as stated, fails: on the empty registry a grant by account 7 is not
    rejected as NotFound. *)
Lemma grant_on_missing_record_not_NotFound :
  fileExists initial 1 = false
  /\ ~ fails_with NotFound
        (execute {| msg_sender := 7; block_timestamp := 100 |}
                 (GrantAccess 1 9) initial).1.
Proof.
  split; [reflexivity|].
  intros Hnf. apply fails_with_kind in Hnf. discriminate Hnf.
Qed.

(** C6. Where a record exists for [fileHash], [grantAccess] and
    [revokeAccess] from any caller that is not its uploader revert with the
    "Only uploader can ..." message (Unauthorized), for every grantee. *)
Theorem grant_revoke_by_non_uploader_unauthorized
    (s : State) (env : Env) (fileHash grantee : Z) :
  fileExists s fileHash = true ->
  msg_sender env <> uploader (fileRecords_at s fileHash) ->
  execute env (GrantAccess fileHash grantee) s
  = (Fail (Revert "Only uploader can grant access"), s)
  /\ execute env (RevokeAccess fileHash grantee) s
     = (Fail (Revert "Only uploader can revoke access"), s)
  /\ fails_with Unauthorized (execute env (GrantAccess fileHash grantee) s).1
  /\ fails_with Unauthorized (execute env (RevokeAccess fileHash grantee) s).1.
Proof.
  intros _ Hsender.
  unfold execute, transact. cbn [body].
  rewrite grantAccess_result, revokeAccess_result.
  destruct (Z.eqb_spec (uploader (fileRecords_at s fileHash)) (msg_sender env))
    as [Heq|_]; [congruence|].
  cbn. repeat split; now apply fails_with_revert.
Qed.

Lemma grant_revoke_by_non_uploader_unauthorized_witness :
  let owner := {| msg_sender := 7; block_timestamp := 100 |} in
  let other := {| msg_sender := 8; block_timestamp := 200 |} in
  let s := (execute owner (UploadFile 1 "QmA" [] false 0 0 0) initial).2 in
  execute other (GrantAccess 1 9) s
  = (Fail (Revert "Only uploader can grant access"), s)
  /\ execute other (RevokeAccess 1 9) s
     = (Fail (Revert "Only uploader can revoke access"), s)
  /\ fails_with Unauthorized (execute other (GrantAccess 1 9) s).1
  /\ fails_with Unauthorized (execute other (RevokeAccess 1 9) s).1.
Proof.
  intros owner other s.
  apply (grant_revoke_by_non_uploader_unauthorized s other 1 9);
    [reflexivity | vm_compute; discriminate].
Defined.

(** ** Failing calls leave no trace *)

(** C9. When the body of [uploadFile], [grantAccess] or [revokeAccess]
    fails, the state it stopped in is the state it started from: the
    registry, the access relation and the event log are untouched, before
    any rollback. The call as a transaction therefore returns the failure
    with the state unchanged. *)
Theorem failing_call_changes_nothing
    (env : Env) (c : Call) (s s' : State) (f : failure) :
  body env c s = (Fail f, s') ->
  s' = s
  /\ fileRecords s' = fileRecords s
  /\ accessControl s' = accessControl s
  /\ events s' = events s
  /\ execute env c s = (Fail f, s).
Proof.
  intros Hfail.
  pose proof (body_failure_leaves_state env s c f s' Hfail) as ->.
  repeat split. unfold execute, transact. now rewrite Hfail.
Qed.

Lemma failing_call_changes_nothing_witness :
  let owner := {| msg_sender := 7; block_timestamp := 100 |} in
  let s := (execute owner (UploadFile 1 "QmA" [] false 0 0 0) initial).2 in
  s = s
  /\ fileRecords s = fileRecords s
  /\ accessControl s = accessControl s
  /\ events s = events s
  /\ execute owner (RevokeAccess 1 7) s
     = (Fail (Revert "Cannot revoke own access"), s).
Proof.
  intros owner s.
  apply (failing_call_changes_nothing owner (RevokeAccess 1 7) s s
           (Revert "Cannot revoke own access")).
  reflexivity.
Defined.

(** ** Verification without a lock *)

(** C5. Where the record of [fileHash] exists and has no location lock,
    [verifyLocation] returns true for every pair of coordinates, whatever
    their size. *)
Theorem verify_without_lock_is_true
    (s : State) (fileHash currentLatitude currentLongitude : Z) :
  fileExists s fileHash = true ->
  hasLocationLock (fileRecords_at s fileHash) = false ->
  verifyLocation s fileHash currentLatitude currentLongitude = Ok true.
Proof.
  unfold fileExists, verifyLocation. intros Hex Hlock.
  rewrite Hex, Hlock. reflexivity.
Qed.

Lemma verify_without_lock_is_true_witness :
  let owner := {| msg_sender := 7; block_timestamp := 100 |} in
  let s := (execute owner (UploadFile 1 "QmA" [] false 34052235 (-118243683) 100)
              initial).2 in
  verifyLocation s 1 (-999999999999) (2 ^ 200) = Ok true.
Proof.
  intros owner s.
  apply (verify_without_lock_is_true s 1 (-999999999999) (2 ^ 200));
    reflexivity.
Defined.

(** ** Invariants of the reachable states *)

Section Invariants.

Ltac by_cases_on_requires :=
  unfold execute, transact; cbn [body];
  rewrite ?uploadFile_result, ?grantAccess_result, ?revokeAccess_result;
  repeat match goal with
         | |- context [if ?a =? ?b then _ else _] =>
             destruct (Z.eqb_spec a b)
         | |- context [if ?b then _ else _] => destruct b eqn:?
         end;
  cbn [fst snd].

Lemma initial_uploaders_have_access : uploaders_have_access initial.
Proof. intros h Hh. discriminate Hh. Qed.

Lemma execute_keeps_uploaders_access (env : Env) (c : Call) (s : State) :
  uploaders_have_access s -> uploaders_have_access (execute env c s).2.
Proof.
  intros Hinv. destruct c as [h0 cid sig lock lat lon rad|h0 g|h0 g];
    by_cases_on_requires; try assumption;
    intros h Hh; specialize (Hinv h);
    unfold fileExists, canAccess, fileRecords_at, accessControl_at in *;
    cbn [fileRecords accessControl] in *.
  - destruct (decide (h0 = h)) as [->|Hne].
    + rewrite lookup_insert_eq in *. cbn [default uploader] in *.
      now rewrite lookup_insert_eq.
    + rewrite lookup_insert_ne in * by assumption.
      rewrite !lookup_insert_ne by congruence. auto.
  - destruct (decide ((h0, g) = (h, uploader (default zeroRecord (fileRecords s !! h)))))
      as [->|Hne].
    + now rewrite lookup_insert_eq.
    + rewrite lookup_insert_ne by assumption. auto.
  - rewrite lookup_insert_ne; [auto|].
    intros [= -> ->]. congruence.
Qed.

Lemma run_keeps_uploaders_access (txs : list (Env * Call)) :
  forall s : State,
    uploaders_have_access s -> uploaders_have_access (run txs s).
Proof.
  induction txs as [|[env c] txs IH]; intros s Hinv; cbn [run];
    [assumption|].
  apply IH. now apply execute_keeps_uploaders_access.
Qed.

Lemma initial_never_written (fileHash : Z) : never_written fileHash initial.
Proof. split; [|intros addr]; apply lookup_empty. Qed.

Lemma execute_keeps_never_written
    (fileHash : Z) (env : Env) (c : Call) (s : State) :
  msg_sender env <> 0 ->
  uploads fileHash c && succeeded (execute env c s).1 = false ->
  never_written fileHash s -> never_written fileHash (execute env c s).2.
Proof.
  intros Hsender Hnot [Hrec Hacc].
  assert (Hzero : uploader (fileRecords_at s fileHash) = 0)
    by (unfold fileRecords_at; now rewrite Hrec).
  revert Hnot.
  destruct c as [h0 cid sig lock lat lon rad|h0 g|h0 g];
    by_cases_on_requires; intros Hnot; try (now split);
    unfold never_written; cbn [fileRecords accessControl uploads] in *.
  - destruct (Z.eqb_spec h0 fileHash) as [->|Hne]; [discriminate Hnot|].
    split; [|intros addr]; rewrite lookup_insert_ne; auto; congruence.
  - split; [assumption|intros addr].
    rewrite lookup_insert_ne; [auto|]. intros [= -> ->]. congruence.
  - split; [assumption|intros addr].
    rewrite lookup_insert_ne; [auto|]. intros [= -> ->]. congruence.
Qed.

Lemma run_keeps_never_written (fileHash : Z) (txs : list (Env * Call)) :
  forall s : State,
    signed txs = true ->
    upload_succeeded fileHash txs s = false ->
    never_written fileHash s -> never_written fileHash (run txs s).
Proof.
  induction txs as [|[env c] txs IH]; intros s Hsigned Hnot Hinv;
    cbn [run]; [assumption|].
  cbn [signed forallb fst] in Hsigned. cbn [upload_succeeded] in Hnot.
  apply andb_true_iff in Hsigned as [Hsender Hsigned].
  apply orb_false_iff in Hnot as [Hhere Hlater].
  apply IH; [assumption..|].
  apply execute_keeps_never_written; [|assumption..].
  destruct (Z.eqb_spec (msg_sender env) 0); [discriminate|assumption].
Qed.

End Invariants.

(** C2. In every state reached from the empty contract by any sequence of
    upload, grant and revoke transactions, the uploader of every existing
    record can access it; the uploader's own revocation of themselves
    reverts with "Cannot revoke own access" (SelfRevocation); and an upload
    that succeeds leaves its sender with access. *)
Theorem uploader_always_has_access (txs : list (Env * Call)) (fileHash : Z) :
  let s := run txs initial in
  fileExists s fileHash = true ->
  canAccess s fileHash (uploader (fileRecords_at s fileHash)) = true
  /\ (forall t : Z,
        let owner := {| msg_sender := uploader (fileRecords_at s fileHash);
                        block_timestamp := t |} in
        let r := execute owner
                   (RevokeAccess fileHash (uploader (fileRecords_at s fileHash))) s in
        r = (Fail (Revert "Cannot revoke own access"), s)
        /\ fails_with SelfRevocation r.1)
  /\ (forall (env : Env) (cid : string) (sig : list Byte.byte) (lock : bool)
             (lat lon rad : Z),
        let r := execute env (UploadFile fileHash cid sig lock lat lon rad) s in
        r.1 = Ok () -> canAccess r.2 fileHash (msg_sender env) = true).
Proof.
  intros s Hex. split; [|split].
  - apply (run_keeps_uploaders_access txs initial);
      [apply initial_uploaders_have_access|assumption].
  - intros t owner r. subst r owner.
    unfold execute, transact. cbn [body]. rewrite revokeAccess_result.
    cbn [msg_sender]. rewrite !Z.eqb_refl. cbn.
    split; [reflexivity|now apply fails_with_revert].
  - intros env cid sig lock lat lon rad r. subst r.
    unfold execute, transact. cbn [body]. rewrite uploadFile_result.
    destruct (uploader (fileRecords_at s fileHash) =? 0); [|discriminate].
    destruct (0 <? Z.of_nat (String.length cid)); [|discriminate].
    intros _. unfold canAccess, accessControl_at. cbn.
    now rewrite lookup_insert_eq.
Qed.

Lemma uploader_always_has_access_witness :
  let owner := {| msg_sender := 7; block_timestamp := 100 |} in
  let txs := [(owner, UploadFile 1 "QmA" [] true 34052235 (-118243683) 100);
              (owner, GrantAccess 1 9);
              (owner, RevokeAccess 1 9);
              (owner, RevokeAccess 1 7)] in
  canAccess (run txs initial) 1 (uploader (fileRecords_at (run txs initial) 1))
  = true.
Proof.
  intros owner txs.
  apply (uploader_always_has_access txs 1). reflexivity.
Defined.

(** C7. After any sequence of transactions sent from accounts in which no
    [uploadFile] of [fileHash] succeeded, [getFileRecord] returns the
    all-zero record, [canAccess] is false for every address, and
    [verifyLocation] reverts with "File not found" (NotFound) for every
    pair of coordinates. *)
Theorem unwritten_hash_reads (txs : list (Env * Call)) (fileHash : Z) :
  signed txs = true ->
  upload_succeeded fileHash txs initial = false ->
  let s := run txs initial in
  getFileRecord s fileHash = (0, "", [], 0, false, 0, 0, 0)
  /\ fileExists s fileHash = false
  /\ (forall addr : Z, canAccess s fileHash addr = false)
  /\ (forall lat lon : Z,
        verifyLocation s fileHash lat lon = Fail (Revert "File not found")
        /\ fails_with NotFound (verifyLocation s fileHash lat lon)).
Proof.
  intros Hsigned Hnot s.
  destruct (run_keeps_never_written fileHash txs initial Hsigned Hnot
              (initial_never_written fileHash)) as [Hrec Hacc].
  fold s in Hrec, Hacc.
  assert (Hzero : fileRecords_at s fileHash = zeroRecord)
    by (unfold fileRecords_at; now rewrite Hrec).
  unfold getFileRecord, fileExists, canAccess, accessControl_at, verifyLocation.
  rewrite Hzero. cbn.
  repeat split; try (now apply fails_with_revert).
  intros addr. now rewrite Hacc.
Qed.

Lemma unwritten_hash_reads_witness :
  let owner := {| msg_sender := 7; block_timestamp := 100 |} in
  let other := {| msg_sender := 8; block_timestamp := 200 |} in
  let txs := [(owner, UploadFile 1 "QmA" [] true 34052235 (-118243683) 100);
              (other, GrantAccess 2 8);
              (other, UploadFile 2 "" [] false 0 0 0);
              (owner, RevokeAccess 2 9)] in
  let s := run txs initial in
  getFileRecord s 2 = (0, "", [], 0, false, 0, 0, 0)
  /\ fileExists s 2 = false
  /\ (forall addr : Z, canAccess s 2 addr = false)
  /\ (forall lat lon : Z,
        verifyLocation s 2 lat lon = Fail (Revert "File not found")
        /\ fails_with NotFound (verifyLocation s 2 lat lon)).
Proof.
  intros owner other txs.
  apply (unwritten_hash_reads txs 2); reflexivity.
Defined.

(** ** The geofence boundary *)

(** On an existing locked record whose distance computation returns [d],
    verification is the comparison [d <= radius]; a distance equal to the
    radius verifies. *)
Lemma verifyLocation_on_locked_record
    (s : State) (fileHash currentLatitude currentLongitude d : Z) :
  fileExists s fileHash = true ->
  hasLocationLock (fileRecords_at s fileHash) = true ->
  calculateDistance (latitude (fileRecords_at s fileHash))
                    (longitude (fileRecords_at s fileHash))
                    currentLatitude currentLongitude = Ok d ->
  verifyLocation s fileHash currentLatitude currentLongitude
  = Ok (d <=? to_uint256 (radius (fileRecords_at s fileHash)))
  /\ (d = to_uint256 (radius (fileRecords_at s fileHash)) ->
      verifyLocation s fileHash currentLatitude currentLongitude = Ok true).
Proof.
  unfold fileExists, verifyLocation. intros Hex Hlock Hdist.
  rewrite Hex, Hlock, Hdist. cbn. split; [reflexivity|].
  intros <-. now rewrite Z.leb_refl.
Qed.

(** C3. The lock (34.052235, -118.243683) against the coordinate 0.0009
    degrees further north: the two fixed-point angles are 59432 and 59433,
    and the computed distance is 6. A coordinate 0.008 degrees north, some
    890 m away, computes to 89 and passes a radius of 100. The comparison
    with the radius is inclusive: the first coordinate passes a radius of 6
    and fails a radius of 5. *)
Theorem boundary_example_distance :
  let owner := {| msg_sender := 7; block_timestamp := 100 |} in
  let locked rad :=
    (execute owner (UploadFile 1 "QmA" [] true 34052235 (-118243683) rad)
       initial).2 in
  calculateDistance 34052235 (-118243683) 34053135 (-118243683) = Ok 6
  /\ calculateDistance 34052235 (-118243683) 34060235 (-118243683) = Ok 89
  /\ verifyLocation (locked 100) 1 34060235 (-118243683) = Ok true
  /\ verifyLocation (locked 6) 1 34053135 (-118243683) = Ok true
  /\ verifyLocation (locked 5) 1 34053135 (-118243683) = Ok false.
Proof. repeat split; reflexivity. Qed.

(** ** The null sender *)

(** The contract reads an uploader of [address(0)] as "no record", so a call
    whose [msg.sender] were [address(0)] would pass the uploader check of a
    hash that has no record. This is why the statements about missing
    records are about transactions sent from accounts. *)
Remark null_sender_passes_uploader_check :
  (execute {| msg_sender := 0; block_timestamp := 100 |} (GrantAccess 1 9)
           initial).1 = Ok ().
Proof. reflexivity. Qed.

(** ** What a successful call writes *)

Section Effects.

Variables (s : State) (env : Env).

(** On a hash that has no record, an empty CID is rejected with "IPFS CID
    cannot be empty" (InvalidPointer) and nothing is written. *)
Theorem upload_with_empty_cid_fails
    (fileHash : Z) (sig : list Byte.byte) (lock : bool) (lat lon rad : Z) :
  fileExists s fileHash = false ->
  let r := execute env (UploadFile fileHash "" sig lock lat lon rad) s in
  r = (Fail (Revert "IPFS CID cannot be empty"), s)
  /\ fails_with InvalidPointer r.1.
Proof.
  intros Hex r. subst r. unfold fileExists in Hex.
  unfold execute, transact. cbn [body]. rewrite uploadFile_result.
  destruct (uploader (fileRecords_at s fileHash) =? 0); [|discriminate].
  cbn. split; [reflexivity|now apply fails_with_revert].
Qed.

(** An upload of a new hash with a non-empty CID succeeds; the record read
    back is the one sent, stamped with the sender and the block time; the
    sender has access; one [FileUploaded] event is appended; no other
    record and no other access entry changes. *)
Theorem upload_stores_what_was_sent
    (fileHash : Z) (cid : string) (sig : list Byte.byte) (lock : bool)
    (lat lon rad : Z) :
  fileExists s fileHash = false ->
  cid <> "" ->
  let r := execute env (UploadFile fileHash cid sig lock lat lon rad) s in
  r.1 = Ok ()
  /\ getFileRecord r.2 fileHash
     = (msg_sender env, cid, sig, block_timestamp env, lock, lat, lon, rad)
  /\ canAccess r.2 fileHash (msg_sender env) = true
  /\ events r.2
     = events s ++ [FileUploaded fileHash (msg_sender env) cid sig
                      (block_timestamp env) lock lat lon rad]
  /\ (forall h : Z, h <> fileHash -> getFileRecord r.2 h = getFileRecord s h)
  /\ (forall h addr : Z,
        (h, addr) <> (fileHash, msg_sender env) ->
        canAccess r.2 h addr = canAccess s h addr).
Proof.
  intros Hex Hcid r. subst r. unfold fileExists in Hex.
  unfold execute, transact. cbn [body]. rewrite uploadFile_result.
  destruct (uploader (fileRecords_at s fileHash) =? 0); [|discriminate].
  assert (Hlen : (0 <? Z.of_nat (String.length cid)) = true)
    by (destruct cid; [contradiction|reflexivity]).
  rewrite Hlen. cbn [fst snd].
  unfold getFileRecord, canAccess, fileRecords_at, accessControl_at.
  cbn [fileRecords accessControl events].
  repeat split.
  - now rewrite lookup_insert_eq.
  - now rewrite lookup_insert_eq.
  - intros h Hh. now rewrite lookup_insert_ne by congruence.
  - intros h addr Hne. now rewrite lookup_insert_ne by congruence.
Qed.

(** The uploader cannot grant access to [address(0)]: the call reverts with
    "Invalid grantee address" (InvalidGrantee) and nothing is written. *)
Theorem grant_to_null_address_fails (fileHash : Z) :
  uploader (fileRecords_at s fileHash) = msg_sender env ->
  let r := execute env (GrantAccess fileHash 0) s in
  r = (Fail (Revert "Invalid grantee address"), s)
  /\ fails_with InvalidGrantee r.1.
Proof.
  intros Hup r. subst r.
  unfold execute, transact. cbn [body]. rewrite grantAccess_result, Hup.
  rewrite Z.eqb_refl. cbn. split; [reflexivity|now apply fails_with_revert].
Qed.

(** A grant by the uploader to a non-null grantee succeeds: the grantee has
    access, one [AccessGranted] event is appended, the registry and every
    other access entry are as before. *)
Theorem grant_by_uploader_gives_access (fileHash grantee : Z) :
  uploader (fileRecords_at s fileHash) = msg_sender env ->
  grantee <> 0 ->
  let r := execute env (GrantAccess fileHash grantee) s in
  r.1 = Ok ()
  /\ canAccess r.2 fileHash grantee = true
  /\ fileRecords r.2 = fileRecords s
  /\ events r.2 = events s ++ [AccessGranted fileHash grantee]
  /\ (forall h addr : Z,
        (h, addr) <> (fileHash, grantee) ->
        canAccess r.2 h addr = canAccess s h addr).
Proof.
  intros Hup Hg r. subst r.
  unfold execute, transact. cbn [body]. rewrite grantAccess_result, Hup.
  rewrite Z.eqb_refl. destruct (Z.eqb_spec grantee 0); [contradiction|].
  cbn [fst snd]. unfold canAccess, accessControl_at.
  cbn [fileRecords accessControl events].
  repeat split.
  - now rewrite lookup_insert_eq.
  - intros h addr Hne. now rewrite lookup_insert_ne by congruence.
Qed.

(** A revocation by the uploader of anyone but themselves succeeds: the
    grantee has no access, one [AccessRevoked] event is appended, the
    registry and every other access entry are as before. *)
Theorem revoke_by_uploader_removes_access (fileHash grantee : Z) :
  uploader (fileRecords_at s fileHash) = msg_sender env ->
  grantee <> msg_sender env ->
  let r := execute env (RevokeAccess fileHash grantee) s in
  r.1 = Ok ()
  /\ canAccess r.2 fileHash grantee = false
  /\ fileRecords r.2 = fileRecords s
  /\ events r.2 = events s ++ [AccessRevoked fileHash grantee]
  /\ (forall h addr : Z,
        (h, addr) <> (fileHash, grantee) ->
        canAccess r.2 h addr = canAccess s h addr).
Proof.
  intros Hup Hg r. subst r.
  unfold execute, transact. cbn [body]. rewrite revokeAccess_result, Hup.
  rewrite Z.eqb_refl.
  destruct (Z.eqb_spec grantee (msg_sender env)); [contradiction|].
  cbn [fst snd]. unfold canAccess, accessControl_at.
  cbn [fileRecords accessControl events].
  repeat split.
  - now rewrite lookup_insert_eq.
  - intros h addr Hne. now rewrite lookup_insert_ne by congruence.
Qed.

End Effects.

Lemma upload_with_empty_cid_fails_witness :
  let env := {| msg_sender := 7; block_timestamp := 100 |} in
  let r := execute env (UploadFile 1 "" [] true 34052235 (-118243683) 100)
             initial in
  r = (Fail (Revert "IPFS CID cannot be empty"), initial)
  /\ fails_with InvalidPointer r.1.
Proof.
  intros env.
  apply (upload_with_empty_cid_fails initial env 1 [] true 34052235
           (-118243683) 100).
  reflexivity.
Defined.

Lemma upload_stores_what_was_sent_witness :
  let env := {| msg_sender := 7; block_timestamp := 100 |} in
  let r := execute env (UploadFile 1 "QmA" [] true 34052235 (-118243683) 100)
             initial in
  getFileRecord r.2 1 = (7, "QmA", [], 100, true, 34052235, -118243683, 100).
Proof.
  intros env.
  apply (upload_stores_what_was_sent initial env 1 "QmA" [] true 34052235
           (-118243683) 100); [reflexivity|discriminate].
Defined.

Lemma grant_to_null_address_fails_witness :
  let owner := {| msg_sender := 7; block_timestamp := 100 |} in
  let s := (execute owner (UploadFile 1 "QmA" [] false 0 0 0) initial).2 in
  let r := execute owner (GrantAccess 1 0) s in
  r = (Fail (Revert "Invalid grantee address"), s)
  /\ fails_with InvalidGrantee r.1.
Proof.
  intros owner s.
  apply (grant_to_null_address_fails s owner 1). reflexivity.
Defined.

Lemma grant_by_uploader_gives_access_witness :
  let owner := {| msg_sender := 7; block_timestamp := 100 |} in
  let s := (execute owner (UploadFile 1 "QmA" [] false 0 0 0) initial).2 in
  canAccess (execute owner (GrantAccess 1 9) s).2 1 9 = true.
Proof.
  intros owner s.
  apply (grant_by_uploader_gives_access s owner 1 9);
    [reflexivity|discriminate].
Defined.

Lemma revoke_by_uploader_removes_access_witness :
  let owner := {| msg_sender := 7; block_timestamp := 100 |} in
  let s := run [(owner, UploadFile 1 "QmA" [] false 0 0 0);
                (owner, GrantAccess 1 9)] initial in
  canAccess (execute owner (RevokeAccess 1 9) s).2 1 9 = false.
Proof.
  intros owner s.
  apply (revoke_by_uploader_removes_access s owner 1 9);
    [reflexivity|discriminate].
Defined.

(** ** How grants and revocations compose *)

Section SuccessfulCalls.

Variables (s : State) (env : Env) (fileHash grantee : Z).
Hypothesis sender_is_uploader :
  uploader (fileRecords_at s fileHash) = msg_sender env.

Lemma execute_grant_passes :
  grantee <> 0 ->
  execute env (GrantAccess fileHash grantee) s
  = (Ok (),
     {| fileRecords := fileRecords s;
        accessControl := <[(fileHash, grantee) := true]> (accessControl s);
        events := events s ++ [AccessGranted fileHash grantee] |}).
Proof.
  intros Hg. unfold execute, transact. cbn [body].
  rewrite grantAccess_result, sender_is_uploader, Z.eqb_refl.
  now destruct (Z.eqb_spec grantee 0).
Qed.

Lemma execute_revoke_passes :
  grantee <> msg_sender env ->
  execute env (RevokeAccess fileHash grantee) s
  = (Ok (),
     {| fileRecords := fileRecords s;
        accessControl := <[(fileHash, grantee) := false]> (accessControl s);
        events := events s ++ [AccessRevoked fileHash grantee] |}).
Proof.
  intros Hg. unfold execute, transact. cbn [body].
  rewrite revokeAccess_result, sender_is_uploader, Z.eqb_refl.
  now destruct (Z.eqb_spec grantee (msg_sender env)).
Qed.

End SuccessfulCalls.

(** For the uploader and a grantee that is neither null nor the uploader:
    the later of a grant and a revocation decides the access; a repeated
    grant writes the same access relation as a single one, and emits a
    second event. *)
Theorem last_grant_or_revoke_decides
    (s : State) (env : Env) (fileHash grantee : Z) :
  uploader (fileRecords_at s fileHash) = msg_sender env ->
  grantee <> 0 ->
  grantee <> msg_sender env ->
  let grant := (env, GrantAccess fileHash grantee) in
  let revoke := (env, RevokeAccess fileHash grantee) in
  canAccess (run [grant; revoke] s) fileHash grantee = false
  /\ canAccess (run [revoke; grant] s) fileHash grantee = true
  /\ accessControl (run [grant; grant] s) = accessControl (run [grant] s)
  /\ events (run [grant; grant] s)
     = events s ++ [AccessGranted fileHash grantee;
                    AccessGranted fileHash grantee].
Proof.
  intros Hup Hg Hself grant revoke. subst grant revoke.
  cbn [run].
  rewrite (execute_grant_passes s env fileHash grantee Hup Hg).
  rewrite (execute_revoke_passes s env fileHash grantee Hup Hself).
  cbn [snd].
  rewrite !execute_grant_passes, !execute_revoke_passes by assumption.
  cbn [snd]. unfold canAccess, accessControl_at.
  cbn [accessControl events].
  rewrite !lookup_insert_eq, insert_insert_eq, <- app_assoc.
  repeat split.
Qed.

Lemma last_grant_or_revoke_decides_witness :
  let owner := {| msg_sender := 7; block_timestamp := 100 |} in
  let s := (execute owner (UploadFile 1 "QmA" [] false 0 0 0) initial).2 in
  canAccess (run [(owner, GrantAccess 1 9); (owner, RevokeAccess 1 9)] s) 1 9
  = false.
Proof.
  intros owner s.
  apply (last_grant_or_revoke_decides s owner 1 9);
    [reflexivity|discriminate|discriminate].
Defined.

(** ** Properties of every transaction sequence *)

Section Traces.

Ltac by_cases_on_requires :=
  unfold execute, transact; cbn [body];
  rewrite ?uploadFile_result, ?grantAccess_result, ?revokeAccess_result;
  repeat match goal with
         | |- context [if ?a =? ?b then _ else _] =>
             destruct (Z.eqb_spec a b)
         | |- context [if ?b then _ else _] => destruct b eqn:?
         end;
  cbn [fst snd].

Lemma execute_keeps_existing_record
    (env : Env) (c : Call) (s : State) (fileHash : Z) :
  fileExists s fileHash = true ->
  fileRecords_at (execute env c s).2 fileHash = fileRecords_at s fileHash.
Proof.
  unfold fileExists. intros Hex.
  destruct c as [h0 cid sig lock lat lon rad|h0 g|h0 g];
    by_cases_on_requires; try reflexivity.
  unfold fileRecords_at in *. cbn [fileRecords].
  destruct (decide (h0 = fileHash)) as [->|Hne];
    [|now rewrite lookup_insert_ne].
  rewrite e in Hex. discriminate Hex.
Qed.

Lemma execute_by_other_keeps_access
    (env : Env) (c : Call) (s : State) (fileHash addr : Z) :
  fileExists s fileHash = true ->
  msg_sender env <> uploader (fileRecords_at s fileHash) ->
  accessControl_at (execute env c s).2 fileHash addr
  = accessControl_at s fileHash addr.
Proof.
  unfold fileExists. intros Hex Hother.
  destruct c as [h0 cid sig lock lat lon rad|h0 g|h0 g];
    by_cases_on_requires; try reflexivity;
    unfold accessControl_at; cbn [accessControl];
    rewrite lookup_insert_ne; try reflexivity; intros [= -> _].
  - rewrite e in Hex. discriminate Hex.
  - congruence.
  - congruence.
Qed.

Lemma execute_appends_events (env : Env) (c : Call) (s : State) :
  exists new : list Event,
    events (execute env c s).2 = events s ++ new
    /\ length new = if succeeded (execute env c s).1 then 1%nat else 0%nat.
Proof.
  destruct c as [h0 cid sig lock lat lon rad|h0 g|h0 g];
    by_cases_on_requires;
    first [ now (exists []; rewrite app_nil_r) | now eexists [_] ].
Qed.

Lemma execute_keeps_existence
    (env : Env) (c : Call) (s : State) (fileHash : Z) :
  fileExists s fileHash = true ->
  fileExists (execute env c s).2 fileHash = true.
Proof.
  intros Hex. unfold fileExists.
  rewrite execute_keeps_existing_record by assumption. exact Hex.
Qed.

Lemma execute_keeps_log_matching (env : Env) (c : Call) (s : State) :
  msg_sender env <> 0 ->
  log_matches_registry s -> log_matches_registry (execute env c s).2.
Proof.
  intros Hsender Hinv.
  destruct c as [h0 cid sig lock lat lon rad|h0 g|h0 g];
    by_cases_on_requires; try assumption;
    intros ev h Hev Hin; cbn [events] in Hin;
    apply elem_of_app in Hin as [Hin|Hin];
    try (apply list_elem_of_singleton in Hin as ->; cbn in Hev);
    try discriminate Hev;
    try (destruct (Hinv ev h Hev Hin) as [Hex Heq]).
  - assert (Hne : h0 <> h).
    { intros ->. unfold fileExists in Hex. rewrite e in Hex. discriminate. }
    unfold fileExists, fileRecords_at in *. cbn [fileRecords].
    rewrite lookup_insert_ne by assumption. now split.
  - apply Z.eqb_eq in Hev as <-.
    unfold fileExists, fileRecords_at. cbn [fileRecords].
    rewrite lookup_insert_eq. cbn.
    split; [|reflexivity].
    now destruct (Z.eqb_spec (msg_sender env) 0).
  - now split.
  - now split.
Qed.

Lemma execute_keeps_registry_logged (env : Env) (c : Call) (s : State) :
  registry_in_log s -> registry_in_log (execute env c s).2.
Proof.
  intros Hinv.
  destruct c as [h0 cid sig lock lat lon rad|h0 g|h0 g];
    by_cases_on_requires; try assumption;
    intros h Hex; cbn [events]; apply elem_of_app;
    unfold fileExists, fileRecords_at in *; cbn [fileRecords] in *.
  - destruct (decide (h0 = h)) as [->|Hne].
    + right. rewrite lookup_insert_eq. apply list_elem_of_singleton.
      reflexivity.
    + left. rewrite lookup_insert_ne in * by assumption. now apply Hinv.
  - left. now apply Hinv.
  - left. now apply Hinv.
Qed.

Lemma execute_counts_uploads
    (fileHash : Z) (env : Env) (c : Call) (s : State) :
  msg_sender env <> 0 ->
  uploads_logged fileHash s = Nat.b2n (fileExists s fileHash) ->
  uploads_logged fileHash (execute env c s).2
  = Nat.b2n (fileExists (execute env c s).2 fileHash).
Proof.
  intros Hsender Hinv.
  destruct c as [h0 cid sig lock lat lon rad|h0 g|h0 g];
    by_cases_on_requires; try assumption;
    unfold uploads_logged, fileExists, fileRecords_at in *;
    cbn [events fileRecords]; rewrite List.filter_app, length_app;
    cbn [List.filter event_uploads length].
  - destruct (Z.eqb_spec h0 fileHash) as [->|Hne].
    + rewrite lookup_insert_eq. cbn [default uploader length].
      rewrite e in Hinv. cbn in Hinv.
      rewrite Hinv. cbn. now destruct (Z.eqb_spec (msg_sender env) 0).
    + rewrite lookup_insert_ne by assumption. cbn [length]. lia.
  - lia.
  - lia.
Qed.

End Traces.

Section TraceInduction.

Variable P : State -> Prop.

Lemma run_keeps (txs : list (Env * Call)) :
  (forall env c s, P s -> P (execute env c s).2) ->
  forall s : State, P s -> P (run txs s).
Proof.
  intros Hstep. induction txs as [|[env c] txs IH]; intros s Hs; cbn [run];
    [assumption|].
  apply IH, Hstep, Hs.
Qed.

Lemma run_signed_keeps (txs : list (Env * Call)) :
  (forall env c s, msg_sender env <> 0 -> P s -> P (execute env c s).2) ->
  signed txs = true ->
  forall s : State, P s -> P (run txs s).
Proof.
  intros Hstep. induction txs as [|[env c] txs IH]; intros Hsigned s Hs;
    cbn [run]; [assumption|].
  cbn [signed forallb fst] in Hsigned.
  apply andb_true_iff in Hsigned as [Hsender Hsigned].
  apply IH; [assumption|]. apply Hstep; [|assumption].
  now destruct (Z.eqb_spec (msg_sender env) 0).
Qed.

End TraceInduction.

(** A record, once stored, is never changed: whatever transactions follow,
    from whatever senders, [getFileRecord] keeps returning it. *)
Theorem existing_record_never_changes
    (txs : list (Env * Call)) (s : State) (fileHash : Z) :
  fileExists s fileHash = true ->
  getFileRecord (run txs s) fileHash = getFileRecord s fileHash
  /\ fileExists (run txs s) fileHash = true.
Proof.
  revert s. induction txs as [|[env c] txs IH]; intros s Hex; cbn [run];
    [now split|].
  destruct (IH (execute env c s).2) as [Hrec Hex'];
    [now apply execute_keeps_existence|].
  split; [|exact Hex'].
  rewrite Hrec. unfold getFileRecord.
  now rewrite execute_keeps_existing_record.
Qed.

Lemma existing_record_never_changes_witness :
  let owner := {| msg_sender := 7; block_timestamp := 100 |} in
  let other := {| msg_sender := 8; block_timestamp := 200 |} in
  let s := (execute owner (UploadFile 1 "QmA" [] true 34052235 (-118243683) 100)
              initial).2 in
  let txs := [(other, UploadFile 1 "QmB" [] false 0 0 0);
              (owner, UploadFile 1 "QmC" [] false 1 1 1);
              (owner, GrantAccess 1 8);
              (other, UploadFile 2 "QmD" [] false 0 0 0)] in
  getFileRecord (run txs s) 1 = getFileRecord s 1
  /\ fileExists (run txs s) 1 = true.
Proof.
  intros owner other s txs.
  apply (existing_record_never_changes txs s 1). reflexivity.
Defined.

(** Only the uploader changes who can access a file: over any sequence of
    transactions none of which is sent by the uploader of an existing
    record, [canAccess] of that file is the same for every address. *)
Theorem access_changes_only_through_uploader
    (txs : list (Env * Call)) (s : State) (fileHash : Z) :
  fileExists s fileHash = true ->
  sent_by_others (uploader (fileRecords_at s fileHash)) txs = true ->
  forall addr : Z,
    canAccess (run txs s) fileHash addr = canAccess s fileHash addr.
Proof.
  revert s. induction txs as [|[env c] txs IH]; intros s Hex Hothers addr;
    cbn [run]; [reflexivity|].
  cbn [sent_by_others forallb fst] in Hothers.
  apply andb_true_iff in Hothers as [Hsender Hothers].
  assert (Hne : msg_sender env <> uploader (fileRecords_at s fileHash))
    by (destruct (Z.eqb_spec (msg_sender env)
                    (uploader (fileRecords_at s fileHash)));
        [discriminate|assumption]).
  rewrite IH.
  - unfold canAccess. now apply execute_by_other_keeps_access.
  - now apply execute_keeps_existence.
  - now rewrite execute_keeps_existing_record.
Qed.

Lemma access_changes_only_through_uploader_witness :
  let owner := {| msg_sender := 7; block_timestamp := 100 |} in
  let other := {| msg_sender := 8; block_timestamp := 200 |} in
  let s := (execute owner (UploadFile 1 "QmA" [] false 0 0 0) initial).2 in
  let txs := [(other, GrantAccess 1 8);
              (other, RevokeAccess 1 7);
              (other, UploadFile 2 "QmD" [] false 0 0 0);
              (other, GrantAccess 2 7)] in
  canAccess (run txs s) 1 8 = canAccess s 1 8
  /\ canAccess (run txs s) 1 7 = canAccess s 1 7.
Proof.
  intros owner other s txs.
  split; apply (access_changes_only_through_uploader txs s 1); reflexivity.
Defined.

(** The event log only grows, by exactly one event for each transaction
    that returns normally and by none for a failing one. *)
Theorem event_log_grows_by_successes (txs : list (Env * Call)) (s : State) :
  exists new : list Event,
    events (run txs s) = events s ++ new
    /\ length new = successes txs s.
Proof.
  revert s. induction txs as [|[env c] txs IH]; intros s;
    cbn [run successes].
  - exists []. now rewrite app_nil_r.
  - destruct (IH (execute env c s).2) as (rest & Hrest & Hlen).
    destruct (execute_appends_events env c s) as (new & Hnew & Hone).
    exists (new ++ rest). rewrite Hrest, Hnew, app_assoc, length_app.
    split; [reflexivity|]. rewrite Hlen, Hone. reflexivity.
Qed.

(** From the empty contract, by transactions sent from accounts: every
    [FileUploaded] event in the log carries exactly the fields of the
    record now stored under its hash. *)
Theorem log_agrees_with_registry
    (txs : list (Env * Call)) (fileHash who : Z) (cid : string)
    (sig : list Byte.byte) (time : Z) (lock : bool) (lat lon rad : Z) :
  signed txs = true ->
  FileUploaded fileHash who cid sig time lock lat lon rad
    ∈ events (run txs initial) ->
  getFileRecord (run txs initial) fileHash
  = (who, cid, sig, time, lock, lat, lon, rad).
Proof.
  intros Hsigned Hin.
  assert (Hinv : log_matches_registry (run txs initial)).
  { apply run_signed_keeps; [|assumption|].
    - intros env c s. apply execute_keeps_log_matching.
    - intros e h _ Hnil. cbn in Hnil. now apply elem_of_nil in Hnil. }
  destruct (Hinv (FileUploaded fileHash who cid sig time lock lat lon rad)
              fileHash (Z.eqb_refl fileHash) Hin) as [_ Heq].
  unfold upload_event in Heq. injection Heq as -> -> -> -> -> -> -> ->.
  reflexivity.
Qed.

Lemma log_agrees_with_registry_witness :
  let owner := {| msg_sender := 7; block_timestamp := 100 |} in
  let other := {| msg_sender := 8; block_timestamp := 200 |} in
  let txs := [(owner, UploadFile 1 "QmA" [] true 34052235 (-118243683) 100);
              (other, UploadFile 1 "QmB" [] false 0 0 0);
              (owner, GrantAccess 1 8)] in
  getFileRecord (run txs initial) 1
  = (7, "QmA", [], 100, true, 34052235, -118243683, 100).
Proof.
  intros owner other txs.
  apply (log_agrees_with_registry txs 1 7 "QmA" [] 100 true 34052235
           (-118243683) 100); [reflexivity|].
  vm_compute. apply list_elem_of_here.
Defined.

(** From the empty contract, by any transactions: every existing record has
    its [FileUploaded] event, with exactly its fields, in the log. *)
Theorem every_record_is_logged (txs : list (Env * Call)) (fileHash : Z) :
  let s := run txs initial in
  fileExists s fileHash = true ->
  FileUploaded fileHash (uploader (fileRecords_at s fileHash))
    (ipfsCID (fileRecords_at s fileHash))
    (signature (fileRecords_at s fileHash))
    (timestamp (fileRecords_at s fileHash))
    (hasLocationLock (fileRecords_at s fileHash))
    (latitude (fileRecords_at s fileHash))
    (longitude (fileRecords_at s fileHash))
    (radius (fileRecords_at s fileHash))
  ∈ events s.
Proof.
  intros s Hex.
  assert (Hinv : registry_in_log s).
  { apply run_keeps; [apply execute_keeps_registry_logged|].
    intros h Hh. discriminate Hh. }
  exact (Hinv fileHash Hex).
Qed.

Lemma every_record_is_logged_witness :
  let owner := {| msg_sender := 7; block_timestamp := 100 |} in
  let txs := [(owner, UploadFile 1 "QmA" [] true 34052235 (-118243683) 100);
              (owner, GrantAccess 1 8)] in
  FileUploaded 1 7 "QmA" [] 100 true 34052235 (-118243683) 100
  ∈ events (run txs initial).
Proof.
  intros owner txs.
  apply (every_record_is_logged txs 1). reflexivity.
Defined.

(** From the empty contract, by transactions sent from accounts: the log
    holds one [FileUploaded] event for a hash that has a record and none
    for a hash that has not. *)
Theorem one_upload_event_per_record
    (txs : list (Env * Call)) (fileHash : Z) :
  signed txs = true ->
  uploads_logged fileHash (run txs initial)
  = Nat.b2n (fileExists (run txs initial) fileHash).
Proof.
  intros Hsigned.
  apply (run_signed_keeps
           (fun s => uploads_logged fileHash s = Nat.b2n (fileExists s fileHash)));
    [|assumption|reflexivity].
  intros env c s. apply execute_counts_uploads.
Qed.

Lemma one_upload_event_per_record_witness :
  let owner := {| msg_sender := 7; block_timestamp := 100 |} in
  let other := {| msg_sender := 8; block_timestamp := 200 |} in
  let txs := [(owner, UploadFile 1 "QmA" [] true 34052235 (-118243683) 100);
              (other, UploadFile 1 "QmB" [] false 0 0 0);
              (owner, UploadFile 1 "QmC" [] false 0 0 0);
              (owner, GrantAccess 1 8)] in
  uploads_logged 1 (run txs initial) = 1%nat
  /\ uploads_logged 2 (run txs initial) = 0%nat.
Proof.
  intros owner other txs. split.
  - apply (one_upload_event_per_record txs 1). reflexivity.
  - apply (one_upload_event_per_record txs 2). reflexivity.
Defined.

(** ** The geofence arithmetic on [int32] coordinates *)

Section Geofence.

Ltac zquot := Z.to_euclidean_division_equations; lia.

(** The fixed-point angle is monotone and bounded. *)
Lemma angle_monotone (u v : Z) :
  u <= v -> u * 314159 ÷ 180000000 <= v * 314159 ÷ 180000000.
Proof. intros Huv. zquot. Qed.

Lemma angle_bounds (v : Z) :
  is_int32 v -> -3748067 <= v * 314159 ÷ 180000000 <= 3748067.
Proof. unfold is_int32. intros Hv. zquot. Qed.

Lemma scaled_root_monotone (a b : Z) :
  0 <= a <= b ->
  Z.sqrt a * 6371000 ÷ 1000000 <= Z.sqrt b * 6371000 ÷ 1000000.
Proof.
  intros Hab. pose proof (Z.sqrt_le_mono a b ltac:(lia)).
  pose proof (Z.sqrt_nonneg a). zquot.
Qed.

End Geofence.

(** On [int32] coordinates the distance computation never fails. Its result
    is the truncated root of [dLon^2 + dLat^2], taken on the fixed-point
    angle differences and scaled by 6371000 / 1000000; it is 0 exactly when
    both differences are 0, it is otherwise at least 6, and it never
    exceeds 67539831. *)
Theorem distance_on_int32_coordinates (lat1 lon1 lat2 lon2 : Z) :
  is_int32 lat1 -> is_int32 lon1 -> is_int32 lat2 -> is_int32 lon2 ->
  let dLat := lat2 * 314159 ÷ 180000000 - lat1 * 314159 ÷ 180000000 in
  let dLon := lon2 * 314159 ÷ 180000000 - lon1 * 314159 ÷ 180000000 in
  let d := Z.sqrt (dLon * dLon + dLat * dLat) * 6371000 ÷ 1000000 in
  calculateDistance lat1 lon1 lat2 lon2 = Ok d
  /\ (d = 0 <-> dLat = 0 /\ dLon = 0)
  /\ (d = 0 \/ 6 <= d)
  /\ d <= 67539831.
Proof.
  intros Hlat1 Hlon1 Hlat2 Hlon2 dLat dLon d.
  split; [now apply calculateDistance_planar|].
  pose proof (angle_bounds lat1 Hlat1). pose proof (angle_bounds lat2 Hlat2).
  pose proof (angle_bounds lon1 Hlon1). pose proof (angle_bounds lon2 Hlon2).
  assert (HdLat : -7496134 <= dLat <= 7496134) by (subst dLat; lia).
  assert (HdLon : -7496134 <= dLon <= 7496134) by (subst dLon; lia).
  clearbody dLat dLon.
  set (q := dLon * dLon + dLat * dLat) in *.
  assert (Hq : 0 <= q <= 112384049892712) by (subst q; nia).
  pose proof (Z.sqrt_nonneg q) as Hr0.
  assert (Hr : Z.sqrt q <= 10601135).
  { apply Z.lt_succ_r, Z.sqrt_lt_square; lia. }
  assert (Hzero : Z.sqrt q = 0 <-> dLat = 0 /\ dLon = 0).
  { split.
    - intros Hs. destruct (Z.eq_dec q 0) as [Hq0|Hq0]; [subst q; nia|].
      pose proof (Z.sqrt_pos q). lia.
    - intros [-> ->]. reflexivity. }
  clearbody q. subst d.
  split; [|split].
  - rewrite <- Hzero. split; [|now intros ->].
    intros Hd. Z.to_euclidean_division_equations; lia.
  - destruct (Z.eq_dec (Z.sqrt q) 0) as [->|Hne]; [now left|right].
    Z.to_euclidean_division_equations; lia.
  - Z.to_euclidean_division_equations; lia.
Qed.

Lemma distance_on_int32_coordinates_witness :
  exists d : Z,
    calculateDistance (-2 ^ 31) (2 ^ 31 - 1) (2 ^ 31 - 1) (-2 ^ 31) = Ok d
    /\ (d = 0 \/ 6 <= d)
    /\ d <= 67539831.
Proof.
  assert (Hmin : is_int32 (-2 ^ 31)) by (unfold is_int32; lia).
  assert (Hmax : is_int32 (2 ^ 31 - 1)) by (unfold is_int32; lia).
  destruct (distance_on_int32_coordinates (-2 ^ 31) (2 ^ 31 - 1)
              (2 ^ 31 - 1) (-2 ^ 31) Hmin Hmax Hmax Hmin)
    as (Hd & _ & Hquantum & Hbound).
  eexists. split; [exact Hd|]. split; [exact Hquantum|exact Hbound].
Defined.

(** The distance from A to B is the distance from B to A, although the
    cosine term is taken at the first latitude only. *)
Theorem distance_is_symmetric (lat1 lon1 lat2 lon2 : Z) :
  is_int32 lat1 -> is_int32 lon1 -> is_int32 lat2 -> is_int32 lon2 ->
  calculateDistance lat1 lon1 lat2 lon2 = calculateDistance lat2 lon2 lat1 lon1.
Proof.
  intros Hlat1 Hlon1 Hlat2 Hlon2.
  rewrite !calculateDistance_planar by assumption. cbv zeta.
  do 4 f_equal. ring.
Qed.

Lemma distance_is_symmetric_witness :
  calculateDistance 34052235 (-118243683) 48858370 2294481
  = calculateDistance 48858370 2294481 34052235 (-118243683).
Proof.
  apply (distance_is_symmetric 34052235 (-118243683) 48858370 2294481);
    unfold is_int32; lia.
Defined.

(** Moving the second point further north and further east never lowers the
    distance: for [lat1 <= lat2 <= lat3] and [lon1 <= lon2 <= lon3] the
    distance from point 1 to point 2 is at most that from point 1 to
    point 3. *)
Theorem distance_grows_with_offsets (lat1 lon1 lat2 lon2 lat3 lon3 : Z) :
  is_int32 lat1 -> is_int32 lon1 -> is_int32 lat3 -> is_int32 lon3 ->
  lat1 <= lat2 <= lat3 ->
  lon1 <= lon2 <= lon3 ->
  exists near far : Z,
    calculateDistance lat1 lon1 lat2 lon2 = Ok near
    /\ calculateDistance lat1 lon1 lat3 lon3 = Ok far
    /\ near <= far.
Proof.
  intros Hlat1 Hlon1 Hlat3 Hlon3 Hlat Hlon.
  assert (Hlat2 : is_int32 lat2) by (unfold is_int32 in *; lia).
  assert (Hlon2 : is_int32 lon2) by (unfold is_int32 in *; lia).
  rewrite !calculateDistance_planar by assumption. cbv zeta.
  eexists _, _. split; [reflexivity|split; [reflexivity|]].
  pose proof (angle_monotone lat1 lat2 ltac:(lia)).
  pose proof (angle_monotone lat2 lat3 ltac:(lia)).
  pose proof (angle_monotone lon1 lon2 ltac:(lia)).
  pose proof (angle_monotone lon2 lon3 ltac:(lia)).
  apply scaled_root_monotone. nia.
Qed.

Lemma distance_grows_with_offsets_witness :
  exists near far : Z,
    calculateDistance 34052235 (-118243683) 34053135 (-118243000) = Ok near
    /\ calculateDistance 34052235 (-118243683) 34060235 (-118240000) = Ok far
    /\ near <= far.
Proof.
  apply (distance_grows_with_offsets 34052235 (-118243683) 34053135
           (-118243000) 34060235 (-118240000));
    unfold is_int32; lia.
Defined.

(** ** Verification on existing records *)

(** At the locked coordinate itself the distance is 0 and the verification
    succeeds, whatever the radius. *)
Theorem verify_at_lock_coordinate_is_true (s : State) (fileHash : Z) :
  fileExists s fileHash = true ->
  is_int32 (latitude (fileRecords_at s fileHash)) ->
  is_int32 (longitude (fileRecords_at s fileHash)) ->
  calculateDistance (latitude (fileRecords_at s fileHash))
                    (longitude (fileRecords_at s fileHash))
                    (latitude (fileRecords_at s fileHash))
                    (longitude (fileRecords_at s fileHash)) = Ok 0
  /\ verifyLocation s fileHash (latitude (fileRecords_at s fileHash))
                    (longitude (fileRecords_at s fileHash)) = Ok true.
Proof.
  intros Hex Hlat Hlon.
  assert (Hd : calculateDistance (latitude (fileRecords_at s fileHash))
                 (longitude (fileRecords_at s fileHash))
                 (latitude (fileRecords_at s fileHash))
                 (longitude (fileRecords_at s fileHash)) = Ok 0).
  { rewrite calculateDistance_planar by assumption. cbv zeta.
    now rewrite !Z.sub_diag. }
  split; [exact Hd|].
  unfold fileExists in Hex. unfold verifyLocation. rewrite Hex, Hd. cbn.
  destruct (hasLocationLock (fileRecords_at s fileHash)); cbn; [|reflexivity].
  f_equal. apply Z.leb_le. unfold to_uint256.
  apply Z.mod_pos_bound. reflexivity.
Qed.

Lemma verify_at_lock_coordinate_is_true_witness :
  let owner := {| msg_sender := 7; block_timestamp := 100 |} in
  let s := (execute owner (UploadFile 1 "QmA" [] true 34052235 (-118243683) 0)
              initial).2 in
  verifyLocation s 1 34052235 (-118243683) = Ok true.
Proof.
  intros owner s.
  apply (verify_at_lock_coordinate_is_true s 1);
    [reflexivity | vm_compute; split; discriminate
                 | vm_compute; split; discriminate].
Defined.

(** With [int32] coordinates stored and queried, "File not found" is the
    only way [verifyLocation] fails: on an existing record it returns a
    boolean, the arithmetic never panics and the loop never runs out. *)
Theorem verify_fails_only_with_not_found
    (s : State) (fileHash currentLatitude currentLongitude : Z) :
  is_int32 (latitude (fileRecords_at s fileHash)) ->
  is_int32 (longitude (fileRecords_at s fileHash)) ->
  is_int32 currentLatitude -> is_int32 currentLongitude ->
  (fileExists s fileHash = true ->
   exists valid : bool,
     verifyLocation s fileHash currentLatitude currentLongitude = Ok valid)
  /\ (fileExists s fileHash = false ->
      verifyLocation s fileHash currentLatitude currentLongitude
      = Fail (Revert "File not found")).
Proof.
  intros Hlat Hlon Hclat Hclon. unfold fileExists, verifyLocation.
  rewrite calculateDistance_planar by assumption.
  split; intros ->; cbn; [|reflexivity].
  destruct (hasLocationLock (fileRecords_at s fileHash)); cbn; eauto.
Qed.

Lemma verify_fails_only_with_not_found_witness :
  let owner := {| msg_sender := 7; block_timestamp := 100 |} in
  let s := (execute owner (UploadFile 1 "QmA" [] true 34052235 (-118243683) 100)
              initial).2 in
  (fileExists s 1 = true ->
   exists valid : bool, verifyLocation s 1 (-2 ^ 31) (2 ^ 31 - 1) = Ok valid)
  /\ (fileExists s 1 = false ->
      verifyLocation s 1 (-2 ^ 31) (2 ^ 31 - 1)
      = Fail (Revert "File not found")).
Proof.
  intros owner s.
  apply (verify_fails_only_with_not_found s 1 (-2 ^ 31) (2 ^ 31 - 1));
    vm_compute; split; discriminate.
Defined.

(** ** The square root on every input *)

(** On every [int256] input below the largest, [sqrt] returns the truncated
    square root: 0 for a negative input, and otherwise the [r] with
    [r * r <= x < (r + 1) * (r + 1)]. On the largest [int256] the
    computation of [x + 1] panics. *)
Theorem sqrt_is_truncated_root (x : Z) :
  int256_min <= x <= int256_max ->
  (x < int256_max ->
   exists r : Z,
     sqrt x = Ok r /\ 0 <= r
     /\ (x < 0 -> r = 0)
     /\ (0 <= x -> r * r <= x < (r + 1) * (r + 1)))
  /\ (x = int256_max -> sqrt x = Fail (Panic overflow)).
Proof.
  intros Hx. split; [|now intros ->].
  intros Hlt. exists (Z.sqrt x).
  destruct (sqrt_total x Hx) as [Hs|[Hmax _]]; [|lia].
  split; [exact Hs|]. split; [apply Z.sqrt_nonneg|]. split.
  - intros Hneg. now apply Z.sqrt_neg.
  - intros Hpos. pose proof (Z.sqrt_spec x Hpos) as H. cbv zeta in H. lia.
Qed.

Lemma sqrt_is_truncated_root_witness :
  exists r : Z,
    sqrt 112384049892712 = Ok r /\ 0 <= r
    /\ (112384049892712 < 0 -> r = 0)
    /\ (0 <= 112384049892712 -> r * r <= 112384049892712 < (r + 1) * (r + 1)).
Proof.
  apply (sqrt_is_truncated_root 112384049892712);
    vm_compute; first [discriminate | reflexivity | split; discriminate].
Defined.

(** ** The audit trail: which blocks are read *)

Section BlockRanges.

Variables (toBlock batchSize : Z).
Hypothesis batch_positive : 0 < batchSize.

Lemma batches_cover (rounds : nat) :
  forall start : Z,
    toBlock - start + 1 <= Z.of_nat rounds ->
    concat (blocks <$> batches rounds start toBlock batchSize)
    = seqZ start (toBlock - start + 1).
Proof.
  induction rounds as [|rounds IH]; intros start Hrounds;
    cbn [batches]; destruct (Z.leb_spec start toBlock) as [Hle|Hgt];
    try (now rewrite seqZ_nil by lia).
  cbn [fmap list_fmap concat]. rewrite IH by lia. unfold blocks. cbn [fst snd].
  destruct (Z.le_gt_cases (start + batchSize - 1) toBlock) as [Hfull|Hlast].
  - rewrite Z.min_l by lia.
    replace (start + batchSize - 1 - start + 1) with batchSize by lia.
    rewrite <- seqZ_app by lia. f_equal. lia.
  - rewrite Z.min_r by lia.
    rewrite (seqZ_nil (start + batchSize)) by lia. now rewrite app_nil_r.
Qed.

Lemma batches_shape (rounds : nat) :
  forall start : Z,
    Forall (fun range => start <= range.1 /\ range.1 <= range.2
                         /\ range.2 <= toBlock
                         /\ range.2 - range.1 < batchSize)
           (batches rounds start toBlock batchSize)
    /\ Z.of_nat (length (batches rounds start toBlock batchSize)) * batchSize
       <= Z.max 0 (toBlock - start + batchSize).
Proof.
  induction rounds as [|rounds IH]; intros start;
    cbn [batches]; destruct (Z.leb_spec start toBlock) as [Hle|Hgt];
    try (split; [constructor|cbn; lia]).
  destruct (IH (start + batchSize)) as [Hshape Hcount]. split.
  - constructor; [cbn; lia|].
    eapply Forall_impl; [exact Hshape|]. cbn. intros range. lia.
  - cbn [length]. lia.
Qed.

End BlockRanges.

(** The ranges read by the audit trail list every block of the window
    [max(0, latestBlock - 5000) .. latestBlock] exactly once and in order:
    none is skipped and none is read twice. Every range lies within the
    window and holds at most 500 blocks, and there are at most 11 of
    them. *)
Theorem block_ranges_cover_the_window (latestBlock : Z) :
  let fromBlock := Z.max 0 (latestBlock - 5000) in
  concat (blocks <$> block_ranges latestBlock)
  = seqZ fromBlock (latestBlock - fromBlock + 1)
  /\ Forall (fun range => fromBlock <= range.1 /\ range.1 <= range.2
                          /\ range.2 <= latestBlock
                          /\ range.2 - range.1 < 500)
            (block_ranges latestBlock)
  /\ (length (block_ranges latestBlock) <= 11)%nat.
Proof.
  intros fromBlock. unfold block_ranges. cbv zeta. fold fromBlock.
  split; [apply batches_cover; lia|].
  destruct (batches_shape latestBlock 500 ltac:(lia)
              (Z.to_nat (latestBlock - fromBlock + 1)) fromBlock)
    as [Hshape Hcount].
  split; [exact Hshape|]. subst fromBlock. lia.
Qed.

(** ** The audit trail: most recent first *)

Section RecentFirstProperties.

Context {A : Type} (timestamp : A -> Z).

Local Abbreviation recent_first :=
  (fun a b : A => timestamp b <= timestamp a).
Local Abbreviation stamped t := (fun e : A => timestamp e =? t).

Lemma insert_event_permutation (e : A) (l : list A) :
  insert_event timestamp e l ≡ₚ e :: l.
Proof.
  induction l as [|e' l IH]; cbn [insert_event]; [reflexivity|].
  destruct (timestamp e <? timestamp e'); [|reflexivity].
  rewrite IH. apply Permutation_swap.
Qed.

Lemma insert_event_sorted (e : A) (l : list A) :
  StronglySorted recent_first l ->
  StronglySorted recent_first (insert_event timestamp e l).
Proof.
  induction 1 as [|e' l Hsorted IH Hall]; cbn [insert_event].
  - repeat constructor.
  - destruct (Z.ltb_spec (timestamp e) (timestamp e')) as [Hlt|Hge].
    + constructor; [exact IH|].
      rewrite insert_event_permutation. constructor; [lia|exact Hall].
    + constructor; [now constructor|].
      constructor; [exact Hge|].
      eapply Forall_impl; [exact Hall|]. cbn. intros b Hb. lia.
Qed.

Lemma insert_event_stable (e : A) (l : list A) (t : Z) :
  List.filter (stamped t) (insert_event timestamp e l)
  = List.filter (stamped t) (e :: l).
Proof.
  induction l as [|e' l IH]; cbn [insert_event]; [reflexivity|].
  destruct (Z.ltb_spec (timestamp e) (timestamp e')) as [Hlt|Hge];
    [|reflexivity].
  cbn [List.filter] in *. rewrite IH.
  destruct (Z.eqb_spec (timestamp e) t), (Z.eqb_spec (timestamp e') t);
    try reflexivity; lia.
Qed.

Lemma sort_recent_first_permutation (l : list A) :
  sort_recent_first timestamp l ≡ₚ l.
Proof.
  induction l as [|e l IH]; cbn [sort_recent_first foldr]; [reflexivity|].
  rewrite insert_event_permutation. now constructor.
Qed.

Lemma sort_recent_first_sorted (l : list A) :
  StronglySorted recent_first (sort_recent_first timestamp l).
Proof.
  induction l as [|e l IH]; cbn [sort_recent_first foldr]; [constructor|].
  now apply insert_event_sorted.
Qed.

Lemma sort_recent_first_stable (l : list A) (t : Z) :
  List.filter (stamped t) (sort_recent_first timestamp l)
  = List.filter (stamped t) l.
Proof.
  induction l as [|e l IH]; cbn [sort_recent_first foldr]; [reflexivity|].
  rewrite insert_event_stable. cbn [List.filter].
  fold (sort_recent_first timestamp l). now rewrite IH.
Qed.

(** The sorted events are the same events, each as often as before; a later
    one never has a larger timestamp than an earlier one; and the events of
    any one timestamp keep the order they had. *)
Theorem sort_recent_first_is_the_stable_sort (events : list A) :
  sort_recent_first timestamp events ≡ₚ events
  /\ StronglySorted (fun a b => timestamp b <= timestamp a)
       (sort_recent_first timestamp events)
  /\ (forall t : Z,
        List.filter (fun e => timestamp e =? t)
          (sort_recent_first timestamp events)
        = List.filter (fun e => timestamp e =? t) events).
Proof.
  split; [apply sort_recent_first_permutation|].
  split; [apply sort_recent_first_sorted|].
  intros t. apply sort_recent_first_stable.
Qed.

(** The page served holds [min(50, n)] of the [n] events, most recent
    first; together with the events left out it is the whole input, and no
    event left out is more recent than an event served. *)
Theorem latest_page_holds_the_most_recent (events : list A) :
  length (latest_page timestamp events) = Nat.min 50 (length events)
  /\ StronglySorted (fun a b => timestamp b <= timestamp a)
       (latest_page timestamp events)
  /\ exists rest : list A,
       latest_page timestamp events ++ rest ≡ₚ events
       /\ (forall served left_out : A,
             served ∈ latest_page timestamp events ->
             left_out ∈ rest ->
             timestamp left_out <= timestamp served).
Proof.
  unfold latest_page.
  pose proof (sort_recent_first_sorted events) as Hsorted.
  rewrite <- (take_drop 50 (sort_recent_first timestamp events)) in Hsorted.
  split; [|split].
  - rewrite length_take.
    now rewrite (Permutation_length (sort_recent_first_permutation events)).
  - now apply StronglySorted_app_1_l in Hsorted.
  - exists (drop 50 (sort_recent_first timestamp events)). split.
    + rewrite take_drop. apply sort_recent_first_permutation.
    + intros served left_out Hserved Hleft.
      exact (StronglySorted_app_1_elem_of _ _ _ _ _ Hsorted Hserved Hleft).
Qed.

End RecentFirstProperties.

(** ** The local server: which record a lookup returns *)

Section LocalLookups.

Context {num : Type}.

Lemma find_after_push (hash : string) (entry : LocalBackend.FileEntry (num := num))
    (mockFiles : list LocalBackend.FileEntry) :
  LocalBackend.getFile hash (mockFiles ++ [entry])
  = match LocalBackend.getFile hash mockFiles with
    | Some first => Some first
    | None =>
        if String.eqb (LocalBackend.fileHash entry) hash then Some entry
        else None
    end.
Proof.
  unfold LocalBackend.getFile.
  induction mockFiles as [|f mockFiles IH]; cbn [app List.find];
    [reflexivity|].
  now destruct (String.eqb (LocalBackend.fileHash f) hash).
Qed.

(** An upload that carries a file, a wallet address, a signature and a file
    hash is accepted whether or not the hash is already stored, and appends
    one record. A lookup of that hash afterwards returns the record stored
    first under it: the new one only when there was none. Lookups of other
    hashes are unchanged. *)
Theorem local_lookup_returns_first_upload
    (walletAddress signature fileHash : string)
    (hasLocationLock : option string) (latitude longitude radius : num)
    (cid : string) (now : Z) (mockFiles : list LocalBackend.FileEntry) :
  walletAddress <> "" -> signature <> "" -> fileHash <> "" ->
  let result :=
    LocalBackend.upload true (Some walletAddress) (Some signature)
      (Some fileHash) hasLocationLock latitude longitude radius cid now
      mockFiles in
  exists fileRecord : LocalBackend.FileEntry,
    result = (LocalBackend.Success fileRecord, mockFiles ++ [fileRecord])
    /\ LocalBackend.fileHash fileRecord = fileHash
    /\ LocalBackend.uploader fileRecord = walletAddress
    /\ LocalBackend.timestamp fileRecord = now
    /\ LocalBackend.getFile fileHash result.2
       = match LocalBackend.getFile fileHash mockFiles with
         | Some first => Some first
         | None => Some fileRecord
         end
    /\ (forall other : string,
          other <> fileHash ->
          LocalBackend.getFile other result.2
          = LocalBackend.getFile other mockFiles).
Proof.
  intros Hwallet Hsig Hhash result. subst result.
  unfold LocalBackend.upload, LocalBackend.truthy.
  destruct (String.eqb_spec walletAddress "") as [|_]; [contradiction|].
  destruct (String.eqb_spec signature "") as [|_]; [contradiction|].
  destruct (String.eqb_spec fileHash "") as [|_]; [contradiction|].
  cbn [negb orb default]. eexists. split; [reflexivity|].
  cbn [fst snd LocalBackend.fileHash LocalBackend.uploader
       LocalBackend.timestamp].
  repeat split.
  - rewrite find_after_push. cbn [LocalBackend.fileHash id].
    now rewrite String.eqb_refl.
  - intros other Hother. rewrite find_after_push.
    cbn [LocalBackend.fileHash id].
    destruct (String.eqb_spec fileHash other) as [Heq|_]; [congruence|].
    now destruct (LocalBackend.getFile other mockFiles).
Qed.

End LocalLookups.

Lemma local_lookup_returns_first_upload_witness :
  let first :=
    (LocalBackend.upload (num := Z) true (Some "0xAb") (Some "sig1")
       (Some "0x01") (Some "true") 34 (-118) 100 "QmA" 1000 []).2 in
  let result :=
    LocalBackend.upload true (Some "0xCd") (Some "sig2") (Some "0x01") None
      0 0 100 "QmB" 2000 first in
  exists fileRecord : LocalBackend.FileEntry,
    result = (LocalBackend.Success fileRecord, first ++ [fileRecord])
    /\ LocalBackend.fileHash fileRecord = "0x01"
    /\ LocalBackend.uploader fileRecord = "0xCd"
    /\ LocalBackend.timestamp fileRecord = 2000
    /\ LocalBackend.getFile "0x01" result.2
       = match LocalBackend.getFile "0x01" first with
         | Some first => Some first
         | None => Some fileRecord
         end
    /\ (forall other : string,
          other <> "0x01" ->
          LocalBackend.getFile other result.2
          = LocalBackend.getFile other first).
Proof.
  intros first.
  apply (local_lookup_returns_first_upload (num := Z) "0xCd" "sig2" "0x01"
           None 0 0 100 "QmB" 2000 first); discriminate.
Defined.

(** ** Access entries belong to existing files *)

Lemma execute_keeps_access_on_existing (env : Env) (c : Call) (s : State) :
  msg_sender env <> 0 ->
  (forall h addr, canAccess s h addr = true -> fileExists s h = true) ->
  forall h addr,
    canAccess (execute env c s).2 h addr = true ->
    fileExists (execute env c s).2 h = true.
Proof.
  intros Hsender Hinv h addr.
  destruct (fileExists s h) eqn:Hex;
    [intros _; now apply execute_keeps_existence|].
  assert (Hno : canAccess s h addr = false).
  { destruct (canAccess s h addr) eqn:Hacc; [|reflexivity].
    apply Hinv in Hacc. congruence. }
  unfold fileExists in Hex. apply negb_false_iff, Z.eqb_eq in Hex.
  unfold execute, transact.
  destruct c as [h0 cid sig lock lat lon rad|h0 g|h0 g]; cbn [body];
    rewrite ?uploadFile_result, ?grantAccess_result, ?revokeAccess_result;
    repeat match goal with
           | |- context [if ?a =? ?b then _ else _] =>
               destruct (Z.eqb_spec a b)
           | |- context [if ?b then _ else _] => destruct b eqn:?
           end;
    cbn [fst snd]; try (rewrite Hno; discriminate);
    unfold canAccess, accessControl_at, fileExists, fileRecords_at in *;
    cbn [accessControl fileRecords].
  - destruct (decide (h0 = h)) as [->|Hne].
    + rewrite lookup_insert_eq. cbn. intros _.
      now destruct (Z.eqb_spec (msg_sender env) 0).
    + rewrite !lookup_insert_ne by congruence. rewrite Hno. discriminate.
  - destruct (decide (h0 = h)) as [->|Hne]; [congruence|].
    rewrite lookup_insert_ne by congruence. rewrite Hno. discriminate.
  - destruct (decide (h0 = h)) as [->|Hne]; [congruence|].
    rewrite lookup_insert_ne by congruence. rewrite Hno. discriminate.
Qed.

(** From the empty contract, by transactions sent from accounts: an address
    has access only to files that exist. *)
Theorem access_implies_existence
    (txs : list (Env * Call)) (fileHash addr : Z) :
  signed txs = true ->
  canAccess (run txs initial) fileHash addr = true ->
  fileExists (run txs initial) fileHash = true.
Proof.
  intros Hsigned.
  apply (run_signed_keeps
           (fun s => forall h a, canAccess s h a = true -> fileExists s h = true));
    [|assumption|discriminate].
  intros env c s. apply execute_keeps_access_on_existing.
Qed.

Lemma access_implies_existence_witness :
  let owner := {| msg_sender := 7; block_timestamp := 100 |} in
  let txs := [(owner, GrantAccess 2 9);
              (owner, UploadFile 1 "QmA" [] false 0 0 0);
              (owner, GrantAccess 1 9)] in
  fileExists (run txs initial) 1 = true.
Proof.
  intros owner txs.
  apply (access_implies_existence txs 1 9); reflexivity.
Defined.
